(** * Photobook: the photo registry, the processing coordinator, the album
    projection and the card editing handlers

    A shallow embedding of [App.tsx], [components/PhotoCard.tsx],
    [services/geminiService.ts] and [types.ts].  React state is passed
    explicitly: a handler that calls [setPhotos(prev => ...)] becomes a
    function on the record of the component's state; the promises that are
    still outstanding and the pending reset timer live in a separate
    [World] record, and the interleavings of user events, settlements and
    the timer are the traces of [step]. *)

From Stdlib Require Import String Ascii List NArith ZArith Bool Lia.
From Stdlib Require Import Sorted Permutation.
Import ListNotations.

Set Warnings "-register-all".
Local Open Scope list_scope.

(* ------------------------------------------------------------------ *)
(** ** JavaScript values the code relies on *)

Module JS.

(** A JavaScript string is its sequence of UTF-16 code units. *)
Definition jsstring := list N.

(** A string literal of the source (ASCII only in this repository). *)
Definition lit (s : string) : jsstring :=
  map N_of_ascii (list_ascii_of_string s).

(** [a === b] on strings: the same code units. *)
Fixpoint strict_eq (a b : jsstring) : bool :=
  match a, b with
  | [], [] => true
  | x :: a', y :: b' => N.eqb x y && strict_eq a' b'
  | _, _ => false
  end.

(** ToBoolean on a string: only the empty string is falsy. *)
Definition truthy (s : jsstring) : bool :=
  match s with
  | [] => false
  | _ :: _ => true
  end.

(** ToBoolean on [string | null] and [string | undefined]. *)
Definition truthy_opt (s : option jsstring) : bool :=
  match s with
  | None => false
  | Some v => truthy v
  end.

(** ECMAScript WhiteSpace and LineTerminator code units, the set that
    [String.prototype.trim] strips: TAB, LF, VT, FF, CR, SP, NBSP,
    U+1680, U+2000..U+200A, U+2028, U+2029, U+202F, U+205F, U+3000 and
    U+FEFF. *)
Definition isWhiteSpace (c : N) : bool :=
  existsb (N.eqb c)
    [9; 10; 11; 12; 13; 32; 160; 5760; 8232; 8233; 8239; 8287; 12288; 65279]%N
  || ((8192 <=? c) && (c <=? 8202))%N.

Fixpoint trimStart (s : jsstring) : jsstring :=
  match s with
  | [] => []
  | c :: rest => if isWhiteSpace c then trimStart rest else s
  end.

Definition trimEnd (s : jsstring) : jsstring := rev (trimStart (rev s)).

Definition trim (s : jsstring) : jsstring := trimEnd (trimStart s).

(** [arr.includes(x)] on an array of strings. *)
Definition includes (arr : list jsstring) (x : jsstring) : bool :=
  existsb (fun y => strict_eq y x) arr.

(** What a [catch] clause can receive: an instance of [Error] or of one of
    its subclasses, carrying a [message], or any other thrown value. *)
Inductive ErrorClass := Error | SyntaxError | TypeError.

Inductive Thrown :=
| ThrowError (cls : ErrorClass) (message : jsstring)
| ThrowOther.

(** [e instanceof Error] *)
Definition instanceof_Error (e : Thrown) : bool :=
  match e with
  | ThrowError _ _ => true
  | ThrowOther => false
  end.

(** [e instanceof SyntaxError] *)
Definition instanceof_SyntaxError (e : Thrown) : bool :=
  match e with
  | ThrowError SyntaxError _ => true
  | _ => false
  end.

(** A promise that has settled: rejected with a thrown value or fulfilled. *)
Inductive Settled (A : Type) :=
| Rejected (e : Thrown)
| Fulfilled (v : A).

Arguments Rejected {A} e.
Arguments Fulfilled {A} v.

End JS.

Import JS.

Declare Scope js_scope.
Delimit Scope js_scope with js.
Infix "===" := strict_eq (at level 70, no associativity) : js_scope.
Local Open Scope js_scope.

(* ------------------------------------------------------------------ *)
(** ** types.ts *)

Module Types.

(** The browser's [File]: the code reads its [type] (the MIME type) and
    hands it to the enrichment client and to the object-URL factory. *)
Record File := mkFile {
  file_name : jsstring;
  file_type : jsstring
}.

Record Photo := mkPhoto {
  id : jsstring;
  src : jsstring;
  file : File;
  title : jsstring;
  caption : jsstring;
  album : jsstring;
  tags : list jsstring;
  isLoading : bool;
  error : option jsstring  (* [error?: string] *)
}.

End Types.

Import Types.

(* ------------------------------------------------------------------ *)
(** ** services/geminiService.ts *)

Module GeminiService.

(** The value [JSON.parse] returns.  Only the type tag of a number matters
    to the checks below. *)
Inductive JsonValue :=
| JNull
| JBool (b : bool)
| JNumber (n : Z)
| JString (s : jsstring)
| JArray (items : list JsonValue)
| JObject (props : list (jsstring * JsonValue)).

(** Own property lookup in a parsed object (its keys are distinct). *)
Fixpoint lookup (props : list (jsstring * JsonValue)) (k : jsstring)
  : option JsonValue :=
  match props with
  | [] => None
  | (k', v) :: rest => if k' === k then Some v else lookup rest k
  end.

(** [result.k] for a [result] that is not [null]; [None] is [undefined].
    None of the four names read below is inherited from a prototype of a
    string, a number, a boolean, an array or a plain object. *)
Definition get (result : JsonValue) (k : jsstring) : option JsonValue :=
  match result with
  | JObject props => lookup props k
  | _ => None
  end.

(** [typeof v === 'string'] *)
Definition typeof_string (v : option JsonValue) : bool :=
  match v with
  | Some (JString _) => true
  | _ => false
  end.

(** [Array.isArray(v)] *)
Definition isArray (v : option JsonValue) : bool :=
  match v with
  | Some (JArray _) => true
  | _ => false
  end.

(** The condition of the [if] at lines 60-64. *)
Definition validShape (result : JsonValue) : bool :=
  typeof_string (get result (lit "title"))
  && typeof_string (get result (lit "caption"))
  && typeof_string (get result (lit "album"))
  && isArray (get result (lit "tags")).

Definition msg_no_api_key : jsstring :=
  lit "API_KEY environment variable is not set.".
Definition msg_invalid_format : jsstring :=
  lit "Invalid response format from AI.".
Definition msg_not_json : jsstring :=
  lit "Failed to parse AI response. The format was not valid JSON.".
Definition msg_generic : jsstring :=
  lit "Failed to generate content from AI. Please try again.".

(** The wording of the engine's own TypeErrors (V8's); the [catch] clause
    below never looks at it. *)
Definition msg_trim_of_undefined : jsstring :=
  lit "Cannot read properties of undefined (reading 'trim')".
Definition msg_title_of_null : jsstring :=
  lit "Cannot read properties of null (reading 'title')".

Section Client.

(** [JSON.parse]: the parsed value, or the message of the [SyntaxError] it
    throws. *)
Variable JSON_parse : jsstring -> jsstring + JsonValue.

(** The body of the [try] block from the point where
    [ai.models.generateContent] settles: [reply] is its rejection, or the
    [text] of the response ([string | undefined]). *)
Definition tryBlock (reply : Settled (option jsstring)) : Settled JsonValue :=
  match reply with
  | Rejected e => Rejected e
  | Fulfilled None => Rejected (ThrowError TypeError msg_trim_of_undefined)
  | Fulfilled (Some text) =>
      let jsonText := trim text in
      match JSON_parse jsonText with
      | inl m => Rejected (ThrowError SyntaxError m)
      | inr JNull => Rejected (ThrowError TypeError msg_title_of_null)
      | inr result =>
          if validShape result
          then Fulfilled result
          else Rejected (ThrowError Error msg_invalid_format)
      end
  end.

(** The [catch] clause at lines 66-72. *)
Definition catchClause (error : Thrown) : Thrown :=
  if instanceof_SyntaxError error
  then ThrowError Error msg_not_json
  else ThrowError Error msg_generic.

Definition generatePhotoDetails
    (API_KEY : option jsstring) (reply : Settled (option jsstring))
  : Settled JsonValue :=
  if negb (truthy_opt API_KEY)
  then Rejected (ThrowError Error msg_no_api_key)
  else
    match tryBlock reply with
    | Fulfilled result => Fulfilled result
    | Rejected error => Rejected (catchClause error)
    end.

End Client.

End GeminiService.

(* ------------------------------------------------------------------ *)
(** ** App.tsx *)

Module App.

(** What [processPhotoContent] destructures from the client's result, at
    the type the client declares for it:
    [Promise<{title: string, caption: string, album: string, tags: string[]}>]. *)
Record Details := mkDetails {
  d_title : jsstring;
  d_caption : jsstring;
  d_album : jsstring;
  d_tags : list jsstring
}.

Record Progress := mkProgress {
  completed : nat;
  total : nat
}.

Record EditingAlbum := mkEditingAlbum {
  oldName : jsstring;
  newName : jsstring
}.

(** The [useState] cells of the component that the handlers below write.
    ([isSaving] and [isImporting] only drive the buttons and are left out.) *)
Record State := mkState {
  photos : list Photo;
  photoToDelete : option jsstring;
  isNewPhotobookModalOpen : bool;
  editingAlbum : option EditingAlbum;
  processingProgress : Progress
}.

Definition initialState : State :=
  mkState [] None false None (mkProgress 0 0).

Definition setPhotos (f : list Photo -> list Photo) (s : State) : State :=
  mkState (f (photos s)) (photoToDelete s) (isNewPhotobookModalOpen s)
          (editingAlbum s) (processingProgress s).

Definition setPhotoToDelete (v : option jsstring) (s : State) : State :=
  mkState (photos s) v (isNewPhotobookModalOpen s)
          (editingAlbum s) (processingProgress s).

Definition setIsNewPhotobookModalOpen (v : bool) (s : State) : State :=
  mkState (photos s) (photoToDelete s) v
          (editingAlbum s) (processingProgress s).

Definition setEditingAlbum (v : option EditingAlbum) (s : State) : State :=
  mkState (photos s) (photoToDelete s) (isNewPhotobookModalOpen s)
          v (processingProgress s).

Definition setProcessingProgress (f : Progress -> Progress) (s : State) : State :=
  mkState (photos s) (photoToDelete s) (isNewPhotobookModalOpen s)
          (editingAlbum s) (f (processingProgress s)).

(** The condition of the effect at lines 29-36: the reset timer is set
    exactly when it holds for the progress the effect has just seen. *)
Definition resetDue (p : Progress) : bool :=
  (0 <? total p) && (total p <=? completed p).

(** Lines 40-45: the updater of [setPhotos] after the client fulfilled. *)
Definition enrichmentSucceeded (newPhoto : Photo) (d : Details)
    (prevPhotos : list Photo) : list Photo :=
  map (fun p =>
         if id p === id newPhoto
         then mkPhoto (id p) (src p) (file p)
                      (d_title d) (d_caption d) (d_album d) (d_tags d)
                      false (error p)
         else p)
      prevPhotos.

(** Line 47. *)
Definition errorMessage (error : Thrown) : jsstring :=
  match error with
  | ThrowError _ message => message
  | ThrowOther => lit "An unknown error occurred."
  end.

(** Lines 48-52: the updater of [setPhotos] after the client rejected. *)
Definition enrichmentFailed (newPhoto : Photo) (errorMessage : jsstring)
    (prevPhotos : list Photo) : list Photo :=
  map (fun p =>
         if id p === id newPhoto
         then mkPhoto (id p) (src p) (file p)
                      (title p) (caption p) (lit "Uncategorized") []
                      false (Some errorMessage)
         else p)
      prevPhotos.

(** [processPhotoContent] from the point where the awaited client call
    settles: the [try] or the [catch] branch, then the [finally] block. *)
Definition processPhotoContent (newPhoto : Photo) (r : Settled Details)
    (s : State) : State :=
  let s1 :=
    match r with
    | Fulfilled d => setPhotos (enrichmentSucceeded newPhoto d) s
    | Rejected error =>
        setPhotos (enrichmentFailed newPhoto (errorMessage error)) s
    end in
  setProcessingProgress
    (fun prev => mkProgress (completed prev + 1) (total prev)) s1.

(** One selected file with the two strings the browser makes for it:
    [crypto.randomUUID()] and [URL.createObjectURL(file)]. *)
Record Selected := mkSelected {
  sel_file : File;
  sel_uuid : jsstring;
  sel_url : jsstring
}.

(** Lines 59-68. *)
Definition newPhotosOf (files : list Selected) : list Photo :=
  map (fun f => mkPhoto (sel_uuid f) (sel_url f) (sel_file f)
                        [] [] [] [] true None)
      files.

(** Lines 58-79.  The second component is the list of photos for which a
    [processPhotoContent] call has been started. *)
Definition handleFilesSelected (files : list Selected) (s : State)
  : State * list Photo :=
  let newPhotos := newPhotosOf files in
  let s1 :=
    setProcessingProgress
      (fun prev => mkProgress (completed prev)
                              (total prev + length newPhotos)) s in
  let s2 := setPhotos (fun prevPhotos => prevPhotos ++ newPhotos) s1 in
  (s2, newPhotos).

(** [handleImportSelected] from the point where [importPhotobook] has
    fulfilled with [imported] (lines 92-96). *)
Definition handleImportSelected (imported : list Photo) (s : State) : State :=
  if 0 <? length imported
  then setPhotos (fun prevPhotos => prevPhotos ++ imported) s
  else s.

Definition handleTitleChange (photoId newTitle : jsstring) (s : State) : State :=
  setPhotos
    (map (fun p =>
            if id p === photoId
            then mkPhoto (id p) (src p) (file p) newTitle (caption p)
                         (album p) (tags p) (isLoading p) (error p)
            else p)) s.

Definition handleCaptionChange (photoId newCaption : jsstring) (s : State)
  : State :=
  setPhotos
    (map (fun p =>
            if id p === photoId
            then mkPhoto (id p) (src p) (file p) (title p) newCaption
                         (album p) (tags p) (isLoading p) (error p)
            else p)) s.

Definition handleTagsChange (photoId : jsstring) (newTags : list jsstring)
    (s : State) : State :=
  setPhotos
    (map (fun p =>
            if id p === photoId
            then mkPhoto (id p) (src p) (file p) (title p) (caption p)
                         (album p) newTags (isLoading p) (error p)
            else p)) s.

Definition handleDeletePhoto (photoId : jsstring) (s : State) : State :=
  setPhotoToDelete (Some photoId) s.

Definition confirmDelete (s : State) : State :=
  match photoToDelete s with
  | None => s
  | Some target =>
      if negb (truthy target) then s
      else
        setPhotoToDelete None
          (setPhotos (filter (fun p => negb (id p === target))) s)
  end.

Definition cancelDelete (s : State) : State := setPhotoToDelete None s.

Definition handleAlbumNameChange (oldName newName : jsstring) (s : State)
  : State :=
  let trimmedNewName := trim newName in
  if negb (truthy trimmedNewName)
  then setEditingAlbum None s
  else
    setEditingAlbum None
      (setPhotos
         (map (fun p =>
                 if album p === oldName
                 then mkPhoto (id p) (src p) (file p) (title p) (caption p)
                              trimmedNewName (tags p) (isLoading p) (error p)
                 else p)) s).

Definition handleSaveAlbumName (s : State) : State :=
  match editingAlbum s with
  | Some e => handleAlbumNameChange (oldName e) (newName e) s
  | None => s
  end.

Definition handleAlbumKeyDown (key : jsstring) (s : State) : State :=
  let s1 := if key === lit "Enter" then handleSaveAlbumName s else s in
  if key === lit "Escape" then setEditingAlbum None s1 else s1.

Definition handleNewPhotobook (s : State) : State :=
  setIsNewPhotobookModalOpen true s.

Definition confirmNewPhotobook (s : State) : State :=
  setIsNewPhotobookModalOpen false (setPhotos (fun _ => []) s).

Definition cancelNewPhotobook (s : State) : State :=
  setIsNewPhotobookModalOpen false s.

(** *** The album projection (lines 211-221) *)

(** Line 214. *)
Definition albumName (photo : Photo) : jsstring :=
  if truthy (album photo) then album photo
  else if isLoading photo then lit "..." else lit "Uncategorized".

(** [grouped] is created by the literal [{}], so besides its own
    properties it answers for the names of [Object.prototype]: a read of
    one of them finds a function (for [__proto__] the prototype object),
    which is truthy and is not an array. *)
Definition objectPrototypeKeys : list jsstring :=
  map lit
    ["constructor"; "hasOwnProperty"; "isPrototypeOf"; "propertyIsEnumerable";
     "toLocaleString"; "toString"; "valueOf"; "__proto__";
     "__defineGetter__"; "__defineSetter__";
     "__lookupGetter__"; "__lookupSetter__"]%string.

Definition inherited (k : jsstring) : bool := includes objectPrototypeKeys k.

(** The own properties of [grouped], in the order of their creation. *)
Definition Grouped := list (jsstring * list Photo).

Fixpoint own (grouped : Grouped) (k : jsstring) : option (list Photo) :=
  match grouped with
  | [] => None
  | (k', arr) :: rest => if k' === k then Some arr else own rest k
  end.

(** [grouped[k].push(photo)] for an own property [k]. *)
Fixpoint push (grouped : Grouped) (k : jsstring) (photo : Photo) : Grouped :=
  match grouped with
  | [] => []
  | (k', arr) :: rest =>
      if k' === k then (k', arr ++ [photo]) :: rest
      else (k', arr) :: push rest k photo
  end.

Definition msg_push_not_a_function : jsstring :=
  lit "grouped[albumName].push is not a function".

(** The body of the [forEach] callback (lines 214-218).  An own property
    holds an array and is truthy; an inherited one is truthy as well, so
    line 216 is skipped and line 218 calls [push] on a value that has none. *)
Definition groupPhoto (grouped : Grouped) (photo : Photo)
  : Thrown + Grouped :=
  let name := albumName photo in
  match own grouped name with
  | Some _ => inr (push grouped name photo)
  | None =>
      if inherited name
      then inl (ThrowError TypeError msg_push_not_a_function)
      else inr (push (grouped ++ [(name, [])]) name photo)
  end.

Fixpoint forEach (ps : list Photo) (grouped : Grouped) : Thrown + Grouped :=
  match ps with
  | [] => inr grouped
  | photo :: rest =>
      match groupPhoto grouped photo with
      | inl e => inl e
      | inr grouped' => forEach rest grouped'
      end
  end.

(** A property name that is an array index: the decimal numeral, without
    a leading zero, of an integer below 2^32 - 1. *)
Definition isDigit (c : N) : bool := ((48 <=? c) && (c <=? 57))%N.

Definition digitsValue (k : jsstring) : N :=
  fold_left (fun acc c => (10 * acc + (c - 48))%N) k 0%N.

Definition arrayIndex (k : jsstring) : option N :=
  match k with
  | [] => None
  | c :: rest =>
      if forallb isDigit k
         && (negb (c =? 48)%N || match rest with [] => true | _ => false end)
         && (digitsValue k <? 2 ^ 32 - 1)%N
      then Some (digitsValue k)
      else None
  end.

Definition isIndexKey (e : jsstring * list Photo) : bool :=
  match arrayIndex (fst e) with Some _ => true | None => false end.

Definition indexOf (e : jsstring * list Photo) : N :=
  match arrayIndex (fst e) with Some n => n | None => 0%N end.

Fixpoint insertIndexed (e : jsstring * list Photo) (l : Grouped) : Grouped :=
  match l with
  | [] => [e]
  | e' :: rest =>
      if (indexOf e <=? indexOf e')%N then e :: l
      else e' :: insertIndexed e rest
  end.

(** [Object.entries]: the array-index keys in ascending numeric order,
    then the other keys in the order of their creation. *)
Definition Object_entries (grouped : Grouped) : Grouped :=
  fold_right insertIndexed [] (filter isIndexKey grouped)
  ++ filter (fun e => negb (isIndexKey e)) grouped.

Section Projection.

(** [a.localeCompare(b)]: the host's collation, negative, zero or
    positive. *)
Variable localeCompare : jsstring -> jsstring -> Z.

(** [Array.prototype.sort] with the comparator of line 220; the sort is
    stable. *)
Fixpoint insertEntry (e : jsstring * list Photo) (l : Grouped) : Grouped :=
  match l with
  | [] => [e]
  | e' :: rest =>
      if (0 <? localeCompare (fst e) (fst e'))%Z
      then e' :: insertEntry e rest
      else e :: l
  end.

Definition sortEntries (l : Grouped) : Grouped := fold_right insertEntry [] l.

(** The value of the [useMemo] for the registry [photos]. *)
Definition albums (photos : list Photo) : Thrown + Grouped :=
  match forEach photos [] with
  | inl e => inl e
  | inr grouped => inr (sortEntries (Object_entries grouped))
  end.

End Projection.

End App.

(* ------------------------------------------------------------------ *)
(** ** components/PhotoCard.tsx *)

Module PhotoCard.

(** The card's own [useState] cells. *)
Record CardState := mkCardState {
  isEditingCaption : bool;
  editedCaption : jsstring;
  isEditingTitle : bool;
  editedTitle : jsstring;
  tagInput : jsstring
}.

(** A call of one of the props [onCaptionChange], [onTitleChange],
    [onTagsChange], [onDelete]. *)
Inductive Callback :=
| onCaptionChange (photoId newCaption : jsstring)
| onTitleChange (photoId newTitle : jsstring)
| onTagsChange (photoId : jsstring) (newTags : list jsstring)
| onDelete (photoId : jsstring).

(** What a handler has done so far: the state its setters have written
    and the prop calls it has made.  A handler reads [photo] and the cells
    of the render it was created in ([r]) and writes to the run. *)
Definition Run := (CardState * list Callback)%type.

Definition setIsEditingCaption (v : bool) (s : CardState) : CardState :=
  mkCardState v (editedCaption s) (isEditingTitle s) (editedTitle s) (tagInput s).
Definition setEditedCaption (v : jsstring) (s : CardState) : CardState :=
  mkCardState (isEditingCaption s) v (isEditingTitle s) (editedTitle s) (tagInput s).
Definition setIsEditingTitle (v : bool) (s : CardState) : CardState :=
  mkCardState (isEditingCaption s) (editedCaption s) v (editedTitle s) (tagInput s).
Definition setEditedTitle (v : jsstring) (s : CardState) : CardState :=
  mkCardState (isEditingCaption s) (editedCaption s) (isEditingTitle s) v (tagInput s).
Definition setTagInput (v : jsstring) (s : CardState) : CardState :=
  mkCardState (isEditingCaption s) (editedCaption s) (isEditingTitle s)
              (editedTitle s) v.

Definition write (f : CardState -> CardState) (run : Run) : Run :=
  (f (fst run), snd run).
Definition call (c : Callback) (run : Run) : Run :=
  (fst run, snd run ++ [c]).

Record KeyboardEvent := mkKey {
  key : jsstring;
  metaKey : bool;
  ctrlKey : bool
}.

Section Handlers.

Variable photo : Photo.
Variable r : CardState.

Definition handleSaveCaption (run : Run) : Run :=
  let run1 :=
    if negb (trim (editedCaption r) === caption photo)
    then call (onCaptionChange (id photo) (trim (editedCaption r))) run
    else run in
  write (setIsEditingCaption false) run1.

Definition handleCancelCaption (run : Run) : Run :=
  write (setIsEditingCaption false)
        (write (setEditedCaption (caption photo)) run).

Definition handleCaptionKeyDown (event : KeyboardEvent) (run : Run) : Run :=
  let run1 :=
    if key event === lit "Escape" then handleCancelCaption run else run in
  if (key event === lit "Enter") && (metaKey event || ctrlKey event)
  then handleSaveCaption run1
  else run1.

Definition handleSaveTitle (run : Run) : Run :=
  let run1 :=
    if truthy (trim (editedTitle r))
       && negb (trim (editedTitle r) === title photo)
    then call (onTitleChange (id photo) (trim (editedTitle r))) run
    else run in
  write (setIsEditingTitle false) run1.

Definition handleCancelTitle (run : Run) : Run :=
  write (setIsEditingTitle false)
        (write (setEditedTitle (title photo)) run).

Definition handleTitleKeyDown (event : KeyboardEvent) (run : Run) : Run :=
  let run1 :=
    if key event === lit "Enter" then handleSaveTitle run else run in
  if key event === lit "Escape" then handleCancelTitle run1 else run1.

Definition handleAddTag (run : Run) : Run :=
  let newTag := trim (tagInput r) in
  let run1 :=
    if truthy newTag && negb (includes (tags photo) newTag)
    then call (onTagsChange (id photo) (tags photo ++ [newTag])) run
    else run in
  write (setTagInput []) run1.

Definition handleRemoveTag (tagToRemove : jsstring) (run : Run) : Run :=
  call (onTagsChange (id photo)
          (filter (fun tag => negb (tag === tagToRemove)) (tags photo))) run.

Definition handleTagInputKeyDown (event : KeyboardEvent) (run : Run) : Run :=
  if key event === lit "Enter" then handleAddTag run else run.

Definition handleDeleteClick (run : Run) : Run :=
  call (onDelete (id photo)) run.

(** A handler run from the render [r]. *)
Definition fire (h : Run -> Run) : Run := h (r, []).

End Handlers.

End PhotoCard.

(* ------------------------------------------------------------------ *)
(** ** The running application *)

Module Session.

Import App.

(** How [App] wires the card's props (lines 346-349). *)
Definition deliver (c : PhotoCard.Callback) (s : State) : State :=
  match c with
  | PhotoCard.onCaptionChange i v => handleCaptionChange i v s
  | PhotoCard.onTitleChange i v => handleTitleChange i v s
  | PhotoCard.onTagsChange i v => handleTagsChange i v s
  | PhotoCard.onDelete i => handleDeletePhoto i s
  end.

Definition deliverAll (cs : list PhotoCard.Callback) (s : State) : State :=
  fold_left (fun acc c => deliver c acc) cs s.

(** The component's state together with what the browser holds for it:
    the [processPhotoContent] calls whose client request has not settled
    (each closed over its [newPhoto]) and whether the reset timer of the
    progress effect is pending. *)
Record World := mkWorld {
  app : State;
  inFlight : list Photo;
  resetTimer : bool
}.

Definition initialWorld : World := mkWorld initialState [] false.

(** Modelled from the spec: [importPhotobook] of
    [services/photobookGenerator], which is not among the sources.  The
    codec's contract is that an imported record has [isEnriching = false]
    and no error. *)
Definition importContract (imported : list Photo) : bool :=
  forallb (fun p => negb (isLoading p)
                    && match error p with None => true | Some _ => false end)
          imported.

Inductive Event :=
| FilesSelected (files : list Selected)
| EnrichmentSettled (n : nat) (r : Settled Details)
| ResetTimerFired
| ImportResolved (imported : list Photo)
| CardCallback (c : PhotoCard.Callback)
| ConfirmDelete
| CancelDelete
| AlbumClicked (albumName : jsstring)
| AlbumInput (value : jsstring)
| AlbumBlur
| AlbumKeyDown (key : jsstring)
| NewPhotobook
| ConfirmNewPhotobook
| CancelNewPhotobook.

Definition removeNth {A} (n : nat) (l : list A) : list A :=
  firstn n l ++ skipn (S n) l.

(** An event leaves the promises and the timer alone unless it writes
    [processingProgress]; then the effect's cleanup clears the timer and
    its body sets a new one when [resetDue] holds. *)
Definition ui (f : State -> State) (w : World) : option World :=
  Some (mkWorld (f (app w)) (inFlight w) (resetTimer w)).

Definition step (w : World) (e : Event) : option World :=
  match e with
  | FilesSelected files =>
      let (s', started) := handleFilesSelected files (app w) in
      Some (mkWorld s' (inFlight w ++ started)
                    (resetDue (processingProgress s')))
  | EnrichmentSettled n r =>
      match nth_error (inFlight w) n with
      | None => None
      | Some newPhoto =>
          let s' := processPhotoContent newPhoto r (app w) in
          Some (mkWorld s' (removeNth n (inFlight w))
                        (resetDue (processingProgress s')))
      end
  | ResetTimerFired =>
      if resetTimer w
      then
        let s' := setProcessingProgress (fun _ => mkProgress 0 0) (app w) in
        Some (mkWorld s' (inFlight w) (resetDue (processingProgress s')))
      else None
  | ImportResolved imported =>
      if importContract imported
      then ui (handleImportSelected imported) w
      else None
  | CardCallback c => ui (deliver c) w
  | ConfirmDelete => ui confirmDelete w
  | CancelDelete => ui cancelDelete w
  | AlbumClicked albumName =>
      ui (setEditingAlbum (Some (mkEditingAlbum albumName albumName))) w
  | AlbumInput value =>
      match editingAlbum (app w) with
      | Some e => ui (setEditingAlbum (Some (mkEditingAlbum (oldName e) value))) w
      | None => None
      end
  | AlbumBlur => ui handleSaveAlbumName w
  | AlbumKeyDown key => ui (handleAlbumKeyDown key) w
  | NewPhotobook => ui handleNewPhotobook w
  | ConfirmNewPhotobook => ui confirmNewPhotobook w
  | CancelNewPhotobook => ui cancelNewPhotobook w
  end.

Fixpoint run (w : World) (es : list Event) : option World :=
  match es with
  | [] => Some w
  | e :: rest =>
      match step w e with
      | Some w' => run w' rest
      | None => None
      end
  end.

Inductive reachable : World -> Prop :=
| reachable_initial : reachable initialWorld
| reachable_step w e w' :
    reachable w -> step w e = Some w' -> reachable w'.

End Session.

(* ------------------------------------------------------------------ *)
(** ** What the properties speak of *)

Module Spec.

Import App Session.

(** A record is not both loading and in error. *)
Definition exclusive (p : Photo) : Prop :=
  isLoading p = true -> error p = None.

(** The counter accounts for the outstanding requests, and the reset timer
    is pending exactly when the effect's condition holds. *)
Definition accounted (w : World) : Prop :=
  completed (processingProgress (app w)) + length (inFlight w)
  = total (processingProgress (app w))
  /\ resetTimer w = resetDue (processingProgress (app w)).

(** The records of [ps] that are displayed under the name [k], in the
    order of the registry. *)
Definition shown (k : jsstring) (ps : list Photo) : list Photo :=
  filter (fun p => albumName p === k) ps.

(** [a] may stand before [b] in an array sorted with the comparator of
    line 220. *)
Definition inOrder (localeCompare : jsstring -> jsstring -> Z)
    (a b : jsstring * list Photo) : Prop :=
  (localeCompare (fst a) (fst b) <= 0)%Z.

(** How many entries of a tag list are the tag [t]. *)
Definition occurrences (t : jsstring) (l : list jsstring) : nat :=
  length (filter (fun x => x === t) l).

(** The world after a list of events from the initial one. *)
Definition after (es : list Event) : World :=
  match run initialWorld es with
  | Some w => w
  | None => initialWorld
  end.

End Spec.

Module Sample.

Import App Session.

Definition beach : Selected :=
  mkSelected (mkFile (lit "beach.jpg") (lit "image/jpeg"))
             (lit "7f3a-01") (lit "blob:beach").

Definition forest : Selected :=
  mkSelected (mkFile (lit "forest.png") (lit "image/png"))
             (lit "7f3a-02") (lit "blob:forest").

Definition harbour : Selected :=
  mkSelected (mkFile (lit "harbour.jpg") (lit "image/jpeg"))
             (lit "7f3a-03") (lit "blob:harbour").

Definition beachPhoto : Photo :=
  mkPhoto (lit "7f3a-01") (lit "blob:beach")
          (mkFile (lit "beach.jpg") (lit "image/jpeg"))
          [] [] [] [] true None.

Definition dusk : Details :=
  mkDetails (lit "Dusk") (lit "The sun goes down over the bay.")
            (lit "Nature") [lit "sunset"; lit "beach"; lit "sea"].

Definition offline : Thrown :=
  ThrowError Error GeminiService.msg_generic.

(** A transport failure as the client's [catch] clause receives it. *)
Definition networkDown : Thrown := ThrowError TypeError (lit "Failed to fetch").

Definition quoted (s : string) : jsstring := (34 :: lit s ++ [34])%N.

(** A response that is valid JSON and has no [tags]:
    an object with the three members title, caption and album. *)
Definition noTagsText : jsstring :=
  lit "{" ++ quoted "title" ++ lit ":" ++ quoted "Dusk" ++ lit ","
  ++ quoted "caption" ++ lit ":" ++ quoted "The sun goes down." ++ lit ","
  ++ quoted "album" ++ lit ":" ++ quoted "Nature" ++ lit "}".

Definition noTagsValue : GeminiService.JsonValue :=
  GeminiService.JObject
    [(lit "title", GeminiService.JString (lit "Dusk"));
     (lit "caption", GeminiService.JString (lit "The sun goes down."));
     (lit "album", GeminiService.JString (lit "Nature"))].

Definition picnic : Details :=
  mkDetails (lit "Picnic") (lit "Lunch under the old oak.")
            (lit "Family") [lit "picnic"; lit "summer"; lit "park"].

(** A host collation for the examples: code units compared in order. *)
Fixpoint byCodeUnit (a b : jsstring) : Z :=
  match a, b with
  | [], [] => 0
  | [], _ :: _ => -1
  | _ :: _, [] => 1
  | x :: a', y :: b' =>
      match (x ?= y)%N with
      | Lt => -1
      | Gt => 1
      | Eq => byCodeUnit a' b'
      end
  end.

(** [JSON.parse] on the text above; any other text is taken as not JSON
    here. *)
Definition parse (text : jsstring) : jsstring + GeminiService.JsonValue :=
  if text === noTagsText then inr noTagsValue
  else inl (lit "Unexpected token").

End Sample.

(* ------------------------------------------------------------------ *)
(** ** The rest of the handlers *)

(** services/geminiService.ts, lines 5-14. *)
Module GenerativePart.

(** [s.split(',')]: the pieces between the commas; a string without a
    comma is its only piece. *)
Fixpoint split (s : jsstring) : list jsstring :=
  match s with
  | [] => [[]]
  | c :: rest =>
      if (c =? 44)%N then [] :: split rest
      else
        match split rest with
        | piece :: pieces => (c :: piece) :: pieces
        | [] => [[c]]
        end
  end.

(** The [inlineData] of the part; [data] is [undefined] when the array
    has no element of index 1. *)
Record InlineData := mkInlineData {
  data : option jsstring;
  mimeType : jsstring
}.

(** [fileToGenerativePart] from the point where [onloadend] fires with
    [reader.result] a string (the data URL of the file). *)
Definition fileToGenerativePart (file : File) (readerResult : jsstring)
  : InlineData :=
  mkInlineData (nth_error (split readerResult) 1) (file_type file).

End GenerativePart.

(** components/UploadPrompt.tsx and the two file inputs of App.tsx. *)
Module UploadPrompt.

Import App.

(** A call of the prop [onFilesSelected]. *)
Inductive Call :=
| onFilesSelected (files : list Selected).

(** Lines 11-15; [files] is [event.target.files], a [FileList] or [null]. *)
Definition handleFileChange (files : option (list Selected)) : list Call :=
  match files with
  | Some fs => if 0 <? length fs then [onFilesSelected fs] else []
  | None => []
  end.

(** App.tsx, lines 81-86: the input in the header. *)
Definition handleFileInputChange (files : option (list Selected)) (s : State)
  : State * list Photo :=
  match files with
  | Some fs => handleFilesSelected fs s
  | None => (s, [])
  end.

End UploadPrompt.

(** The handlers of PhotoCard.tsx that are written inline in the markup,
    its two synchronising effects, and the card as a machine. *)
Module CardView.

Import PhotoCard.

Section Inline.

Variable photo : Photo.
Variable r : CardState.

(** Line 260. *)
Definition clickTitle (run : Run) : Run :=
  if negb (isEditingCaption r) then write (setIsEditingTitle true) run
  else run.

(** Line 335. *)
Definition clickCaption (run : Run) : Run :=
  if negb (isEditingTitle r) then write (setIsEditingCaption true) run
  else run.

(** Lines 236, 308 and 290. *)
Definition changeTitle (value : jsstring) (run : Run) : Run :=
  write (setEditedTitle value) run.
Definition changeCaption (value : jsstring) (run : Run) : Run :=
  write (setEditedCaption value) run.
Definition changeTagInput (value : jsstring) (run : Run) : Run :=
  write (setTagInput value) run.

(** Lines 128-132: runs after a render in which [photo.caption] or
    [isEditingCaption] has changed. *)
Definition effectCaption (run : Run) : Run :=
  if negb (isEditingCaption r) then write (setEditedCaption (caption photo)) run
  else run.

(** Lines 134-138. *)
Definition effectTitle (run : Run) : Run :=
  if negb (isEditingTitle r) then write (setEditedTitle (title photo)) run
  else run.

End Inline.

Inductive CardEvent :=
| ClickTitle
| ClickCaption
| ChangeTitle (value : jsstring)
| ChangeCaption (value : jsstring)
| ChangeTagInput (value : jsstring)
| TitleKeyDown (event : KeyboardEvent)
| CaptionKeyDown (event : KeyboardEvent)
| TagInputKeyDown (event : KeyboardEvent)
| TagInputBlur
| SaveTitleClicked
| CancelTitleClicked
| SaveCaptionClicked
| CancelCaptionClicked
| RemoveTagClicked (tag : jsstring)
| DeleteClicked
| CaptionEffect
| TitleEffect.

(** One event on the card rendered for [photo] in the state [r]. *)
Definition handle (photo : Photo) (r : CardState) (e : CardEvent) : Run :=
  fire r
    match e with
    | ClickTitle => clickTitle r
    | ClickCaption => clickCaption r
    | ChangeTitle v => changeTitle v
    | ChangeCaption v => changeCaption v
    | ChangeTagInput v => changeTagInput v
    | TitleKeyDown ev => handleTitleKeyDown photo r ev
    | CaptionKeyDown ev => handleCaptionKeyDown photo r ev
    | TagInputKeyDown ev => handleTagInputKeyDown photo r ev
    | TagInputBlur => handleAddTag photo r
    | SaveTitleClicked => handleSaveTitle photo r
    | CancelTitleClicked => handleCancelTitle photo
    | SaveCaptionClicked => handleSaveCaption photo r
    | CancelCaptionClicked => handleCancelCaption photo
    | RemoveTagClicked tag => handleRemoveTag photo tag
    | DeleteClicked => handleDeleteClick photo
    | CaptionEffect => effectCaption photo r
    | TitleEffect => effectTitle photo r
    end.

(** The card's state when it is mounted for [photo] (lines 116-124). *)
Definition mount (photo : Photo) : CardState :=
  mkCardState false (caption photo) false (title photo) [].

(** The card's state after a list of events, each with the record the
    card was rendered for at that moment. *)
Fixpoint play (r : CardState) (es : list (Photo * CardEvent)) : CardState :=
  match es with
  | [] => r
  | (photo, e) :: rest => play (fst (handle photo r e)) rest
  end.

End CardView.

(** What the further properties speak of. *)
Module Frame.

Import App Session.

(** Some outstanding request was started for the id of [p]. *)
Definition awaited (w : World) (p : Photo) : Prop :=
  exists q, In q (inFlight w) /\ id q = id p.

(** Every record that is loading has an outstanding request. *)
Definition loadingAwaited (w : World) : Prop :=
  forall p, In p (photos (app w)) -> isLoading p = true -> awaited w p.

(** What identifies a record and its image. *)
Definition identity (p : Photo) : jsstring * jsstring * File :=
  (id p, src p, file p).

(** The events that add records to the registry or remove records. *)
Definition restructures (e : Event) : bool :=
  match e with
  | FilesSelected _ | ImportResolved _ | ConfirmDelete | ConfirmNewPhotobook =>
      true
  | _ => false
  end.

Definition isSettlement (e : Event) : bool :=
  match e with
  | EnrichmentSettled _ _ => true
  | _ => false
  end.


End Frame.

(** Runs in which the ids the browser and the codec hand out are new:
    [crypto.randomUUID()] for an upload, the identifiers of the decoded
    records for an import. *)
Module Fresh.

Import App Session.

(** The ids an event brings into the registry. *)
Definition addedIds (e : Event) : list jsstring :=
  match e with
  | FilesSelected files => map sel_uuid files
  | ImportResolved imported => map id imported
  | _ => []
  end.

(** They are distinct and none is the id of a record of the registry. *)
Definition freshFor (w : World) (e : Event) : Prop :=
  NoDup (addedIds e)
  /\ forall i, In i (addedIds e) -> ~ In i (map id (photos (app w))).

Inductive freshReachable : World -> Prop :=
| fresh_initial : freshReachable initialWorld
| fresh_step w e w' :
    freshReachable w -> freshFor w e -> step w e = Some w' ->
    freshReachable w'.

End Fresh.

(* ------------------------------------------------------------------ *)
(** * Properties *)

Import App Session Spec.

(** ** Strings *)

Lemma strict_eq_true_iff (a b : jsstring) : (a === b) = true <-> a = b.
Proof.
  revert b; induction a as [|x a IH]; intros [|y b]; simpl; split;
    try congruence; try reflexivity.
  - intros H. apply andb_true_iff in H as [Hx Hab].
    apply N.eqb_eq in Hx. apply IH in Hab. congruence.
  - intros H. injection H as -> ->. rewrite N.eqb_refl. simpl.
    now apply IH.
Qed.

Lemma strict_eq_refl (a : jsstring) : (a === a) = true.
Proof. now apply strict_eq_true_iff. Qed.

Lemma strict_eq_false_iff (a b : jsstring) : (a === b) = false <-> a <> b.
Proof.
  destruct (a === b) eqn:E.
  - apply strict_eq_true_iff in E. split; [discriminate | congruence].
  - split; [|reflexivity]. intros _ H. apply strict_eq_true_iff in H.
    congruence.
Qed.

Lemma strict_eq_sym (a b : jsstring) : (a === b) = (b === a).
Proof.
  destruct (b === a) eqn:E.
  - apply strict_eq_true_iff in E. subst. apply strict_eq_refl.
  - apply strict_eq_false_iff in E. apply strict_eq_false_iff. congruence.
Qed.

Lemma includes_true_iff (arr : list jsstring) (x : jsstring) :
  includes arr x = true <-> In x arr.
Proof.
  unfold includes. rewrite existsb_exists. split.
  - intros (y & Hy & E). apply strict_eq_true_iff in E. now subst.
  - intros H. exists x. split; [assumption | apply strict_eq_refl].
Qed.

Lemma truthy_false_iff (s : jsstring) : truthy s = false <-> s = [].
Proof. destruct s; simpl; split; congruence. Qed.

(** ** Mapping over the registry with a guard on the id *)

Section GuardedMap.

Variable hit : Photo -> bool.
Variable change : Photo -> Photo.

Let upd (p : Photo) : Photo := if hit p then change p else p.

Lemma guarded_map_miss (l : list Photo) :
  (forall p, In p l -> hit p = false) -> map upd l = l.
Proof.
  induction l as [|p l IH]; simpl; intros H; [reflexivity|].
  unfold upd at 1. rewrite (H p (or_introl eq_refl)).
  f_equal. apply IH. intros q Hq. apply H. now right.
Qed.

End GuardedMap.

(** ** The registry under an enrichment result *)

Lemma enrichmentSucceeded_absent (newPhoto : Photo) (d : Details)
    (prevPhotos : list Photo) :
  (forall p, In p prevPhotos -> id p <> id newPhoto) ->
  enrichmentSucceeded newPhoto d prevPhotos = prevPhotos.
Proof.
  intros H. unfold enrichmentSucceeded.
  apply (guarded_map_miss (fun p => id p === id newPhoto)).
  intros p Hp. apply strict_eq_false_iff. now apply H.
Qed.

Lemma enrichmentFailed_absent (newPhoto : Photo) (m : jsstring)
    (prevPhotos : list Photo) :
  (forall p, In p prevPhotos -> id p <> id newPhoto) ->
  enrichmentFailed newPhoto m prevPhotos = prevPhotos.
Proof.
  intros H. unfold enrichmentFailed.
  apply (guarded_map_miss (fun p => id p === id newPhoto)).
  intros p Hp. apply strict_eq_false_iff. now apply H.
Qed.

Lemma processPhotoContent_absent (newPhoto : Photo) (r : Settled Details)
    (s : State) :
  (forall p, In p (photos s) -> id p <> id newPhoto) ->
  photos (processPhotoContent newPhoto r s) = photos s.
Proof.
  intros H. destruct r as [e|d]; simpl.
  - now apply enrichmentFailed_absent.
  - now apply enrichmentSucceeded_absent.
Qed.

Lemma confirmDelete_removes (s : State) (target : jsstring) :
  photoToDelete s = Some target -> truthy target = true ->
  photos (confirmDelete s)
  = filter (fun p => negb (id p === target)) (photos s)
  /\ forall p, In p (photos (confirmDelete s)) -> id p <> target.
Proof.
  intros Hd Ht. unfold confirmDelete. rewrite Hd, Ht. simpl.
  split; [reflexivity|].
  intros p Hp. apply filter_In in Hp as [_ Hp].
  apply negb_true_iff in Hp. now apply strict_eq_false_iff.
Qed.

(** C2.  A request that is still outstanding settles for an id the
    registry no longer holds: the settlement is taken (no failure), and
    the registry after it is the registry before it, whether the client
    fulfilled or rejected.  In particular this is so after the record was
    deleted through the confirmation dialog while the request was in
    flight: the deletion removes every record of that id, the request
    stays outstanding, and its later settlement changes nothing. *)
Theorem late_enrichment_leaves_registry_unchanged
    (w : World) (n : nat) (newPhoto : Photo) (r : Settled Details) :
  nth_error (inFlight w) n = Some newPhoto ->
  ((forall p, In p (photos (app w)) -> id p <> id newPhoto) ->
   exists w',
     step w (EnrichmentSettled n r) = Some w'
     /\ photos (app w') = photos (app w))
  /\
  (photoToDelete (app w) = Some (id newPhoto) ->
   truthy (id newPhoto) = true ->
   exists w1 w2,
     step w ConfirmDelete = Some w1
     /\ (forall p, In p (photos (app w1)) -> id p <> id newPhoto)
     /\ step w1 (EnrichmentSettled n r) = Some w2
     /\ photos (app w2) = photos (app w1)).
Proof.
  intros Hn. split.
  - intros Habs. simpl. rewrite Hn. eexists. split; [reflexivity|].
    simpl. now apply processPhotoContent_absent.
  - intros Hd Ht.
    destruct (confirmDelete_removes (app w) (id newPhoto) Hd Ht) as [_ Hgone].
    do 2 eexists. split; [reflexivity|]. split; [exact Hgone|].
    simpl. rewrite Hn. split; [reflexivity|].
    simpl. now apply processPhotoContent_absent.
Qed.

(** C3.  An enrichment result is applied record by record, in place: the
    registry keeps its length, a record whose id is the request's becomes,
    on success, the same record with title, caption, album and tags taken
    from the result, [isLoading] false and its [error] field as it was
    (so still unset when it was unset), and, on failure, the same record
    with album ['Uncategorized'], no tags, [error] set to the message of
    the failure and [isLoading] false; a record of any other id is the
    record it was. *)
Theorem enrichment_result_updates_its_record
    (newPhoto : Photo) (d : Details) (e : Thrown) (s : State)
    (i : nat) (p : Photo) :
  nth_error (photos s) i = Some p ->
  let ok := photos (processPhotoContent newPhoto (Fulfilled d) s) in
  let ko := photos (processPhotoContent newPhoto (Rejected e) s) in
  length ok = length (photos s)
  /\ length ko = length (photos s)
  /\ (id p = id newPhoto ->
      nth_error ok i
      = Some (mkPhoto (id p) (src p) (file p)
                      (d_title d) (d_caption d) (d_album d) (d_tags d)
                      false (error p))
      /\ nth_error ko i
         = Some (mkPhoto (id p) (src p) (file p) (title p) (caption p)
                         (lit "Uncategorized") [] false
                         (Some (errorMessage e))))
  /\ (id p <> id newPhoto ->
      nth_error ok i = Some p /\ nth_error ko i = Some p).
Proof.
  intros Hi ok ko. subst ok ko. simpl.
  unfold enrichmentSucceeded, enrichmentFailed.
  rewrite !length_map. do 2 (split; [reflexivity|]).
  rewrite !nth_error_map, Hi. simpl.
  split; intros H.
  - apply strict_eq_true_iff in H. rewrite H. split; reflexivity.
  - apply strict_eq_false_iff in H. rewrite H. split; reflexivity.
Qed.

Lemma late_enrichment_witness :
  let w := after [FilesSelected [Sample.beach; Sample.forest];
                  CardCallback (PhotoCard.onDelete (lit "7f3a-01"))] in
  exists w1 w2,
    step w ConfirmDelete = Some w1
    /\ (forall p, In p (photos (app w1)) -> id p <> lit "7f3a-01")
    /\ step w1 (EnrichmentSettled 0 (Fulfilled Sample.dusk)) = Some w2
    /\ photos (app w2) = photos (app w1).
Proof.
  exact (proj2 (late_enrichment_leaves_registry_unchanged
                  (after [FilesSelected [Sample.beach; Sample.forest];
                          CardCallback (PhotoCard.onDelete (lit "7f3a-01"))])
                  0 Sample.beachPhoto (Fulfilled Sample.dusk) eq_refl)
               eq_refl eq_refl).
Defined.

Lemma enrichment_result_witness :
  let s := app (after [FilesSelected [Sample.beach; Sample.forest]]) in
  nth_error (photos (processPhotoContent Sample.beachPhoto
                       (Fulfilled Sample.dusk) s)) 0
  = Some (mkPhoto (lit "7f3a-01") (lit "blob:beach")
                  (mkFile (lit "beach.jpg") (lit "image/jpeg"))
                  (lit "Dusk") (lit "The sun goes down over the bay.")
                  (lit "Nature") [lit "sunset"; lit "beach"; lit "sea"]
                  false None)
  /\ nth_error (photos (processPhotoContent Sample.beachPhoto
                          (Rejected Sample.offline) s)) 0
     = Some (mkPhoto (lit "7f3a-01") (lit "blob:beach")
                     (mkFile (lit "beach.jpg") (lit "image/jpeg"))
                     [] [] (lit "Uncategorized") [] false
                     (Some GeminiService.msg_generic)).
Proof.
  exact (proj1 (proj2 (proj2
           (enrichment_result_updates_its_record
              Sample.beachPhoto Sample.dusk Sample.offline
              (app (after [FilesSelected [Sample.beach; Sample.forest]]))
              0 Sample.beachPhoto eq_refl))) eq_refl).
Defined.

(** ** The progress counter *)

Lemma length_removeNth {A} (n : nat) (l : list A) (x : A) :
  nth_error l n = Some x -> S (length (removeNth n l)) = length l.
Proof.
  revert l; induction n as [|n IH]; intros [|y l] H; simpl in *;
    try discriminate.
  - reflexivity.
  - f_equal. now apply IH.
Qed.

Lemma resetDue_true (p : Progress) :
  resetDue p = true -> 0 < total p /\ total p <= completed p.
Proof.
  unfold resetDue. intros H. apply andb_true_iff in H as [H1 H2].
  apply Nat.ltb_lt in H1. apply Nat.leb_le in H2. now split.
Qed.

Lemma step_ui_progress (f : State -> State) (w w' : World) :
  processingProgress (f (app w)) = processingProgress (app w) ->
  ui f w = Some w' -> accounted w -> accounted w'.
Proof.
  intros Hf H [Hsum Htimer]. injection H as <-. unfold accounted. simpl.
  rewrite Hf. now split.
Qed.

Lemma handleAlbumNameChange_progress (o n : jsstring) (s : State) :
  processingProgress (handleAlbumNameChange o n s) = processingProgress s.
Proof. unfold handleAlbumNameChange. now destruct (negb _). Qed.

Lemma handleSaveAlbumName_progress (s : State) :
  processingProgress (handleSaveAlbumName s) = processingProgress s.
Proof.
  unfold handleSaveAlbumName. destruct (editingAlbum s); [|reflexivity].
  apply handleAlbumNameChange_progress.
Qed.

Lemma step_accounted (w : World) (e : Event) (w' : World) :
  accounted w -> step w e = Some w' -> accounted w'.
Proof.
  intros Hacc Hstep. destruct e; simpl in Hstep;
    try (eapply step_ui_progress; [| exact Hstep | exact Hacc]; reflexivity).
  - (* FilesSelected *)
    injection Hstep as <-. destruct Hacc as [Hsum _]. split; [|reflexivity].
    simpl. rewrite length_app. unfold newPhotosOf. rewrite length_map in *. lia.
  - (* EnrichmentSettled *)
    destruct (nth_error (inFlight w) n) as [newPhoto|] eqn:Hn; [|discriminate].
    injection Hstep as <-. destruct Hacc as [Hsum _]. split; [|reflexivity].
    apply length_removeNth in Hn.
    destruct r; simpl; lia.
  - (* ResetTimerFired *)
    destruct (resetTimer w) eqn:Ht; [|discriminate].
    injection Hstep as <-. destruct Hacc as [Hsum Htimer].
    rewrite Ht in Htimer. symmetry in Htimer.
    apply resetDue_true in Htimer as [_ Hle].
    split; [|reflexivity]. simpl. lia.
  - (* ImportResolved *)
    destruct (importContract imported); [|discriminate].
    eapply step_ui_progress; [| exact Hstep | exact Hacc].
    unfold handleImportSelected. now destruct (0 <? _).
  - (* CardCallback *)
    eapply step_ui_progress; [| exact Hstep | exact Hacc]. now destruct c.
  - (* ConfirmDelete *)
    eapply step_ui_progress; [| exact Hstep | exact Hacc].
    unfold confirmDelete. destruct (photoToDelete (app w)); [|reflexivity].
    now destruct (negb _).
  - (* AlbumInput *)
    destruct (editingAlbum (app w)); [|discriminate].
    eapply step_ui_progress; [| exact Hstep | exact Hacc]. reflexivity.
  - (* AlbumBlur *)
    eapply step_ui_progress; [| exact Hstep | exact Hacc].
    apply handleSaveAlbumName_progress.
  - (* AlbumKeyDown *)
    eapply step_ui_progress; [| exact Hstep | exact Hacc].
    unfold handleAlbumKeyDown.
    destruct (key === lit "Enter"), (key === lit "Escape"); simpl;
      try reflexivity; apply handleSaveAlbumName_progress.
Qed.

Lemma reachable_accounted (w : World) : reachable w -> accounted w.
Proof.
  induction 1 as [|w e w' _ IH Hstep].
  - split; reflexivity.
  - eapply step_accounted; eassumption.
Qed.

Lemma reachable_run (w : World) (es : list Event) (w' : World) :
  reachable w -> run w es = Some w' -> reachable w'.
Proof.
  revert w; induction es as [|e es IH]; intros w Hw H; simpl in H.
  - now injection H as <-.
  - destruct (step w e) as [w1|] eqn:E; [|discriminate].
    apply (IH w1); [|assumption]. now apply (reachable_step w e).
Qed.

Lemma reachable_after (es : list Event) (w : World) :
  run initialWorld es = Some w -> reachable (after es).
Proof.
  intros H. unfold after. rewrite H.
  apply (reachable_run initialWorld es); [constructor | assumption].
Qed.

(** C1.  Starting a batch of N photos adds exactly N to [total] and leaves
    [completed] as it was; any outstanding request may settle, in any
    order, and its settlement, fulfilled or rejected, adds exactly one to
    [completed] and leaves [total] as it was; and in every reachable state
    [completed <= total], the difference being the number of requests
    still outstanding.  The reset to {0,0} is among the steps: the bound
    holds along every run without a reset and, the timer being cleared by
    the effect's cleanup whenever the counter changes, after a reset as
    well. *)
Theorem progress_counter_consistent :
  (forall w files w',
      step w (FilesSelected files) = Some w' ->
      total (processingProgress (app w'))
      = total (processingProgress (app w)) + length files
      /\ completed (processingProgress (app w'))
         = completed (processingProgress (app w)))
  /\ (forall w n r,
         n < length (inFlight w) ->
         exists w',
           step w (EnrichmentSettled n r) = Some w'
           /\ completed (processingProgress (app w'))
              = completed (processingProgress (app w)) + 1
           /\ total (processingProgress (app w'))
              = total (processingProgress (app w)))
  /\ (forall w,
         reachable w ->
         completed (processingProgress (app w))
         <= total (processingProgress (app w))
         /\ total (processingProgress (app w))
            - completed (processingProgress (app w))
            = length (inFlight w)).
Proof.
  split; [|split].
  - intros w files w' H. simpl in H. injection H as <-. simpl.
    unfold newPhotosOf. rewrite length_map. now split.
  - intros w n r Hn. apply nth_error_Some in Hn.
    destruct (nth_error (inFlight w) n) as [newPhoto|] eqn:E; [|congruence].
    eexists. simpl. rewrite E. split; [reflexivity|].
    destruct r; simpl; now split.
  - intros w Hw. destruct (reachable_accounted w Hw) as [Hsum _]. lia.
Qed.

Lemma progress_counter_witness :
  let w := after [FilesSelected [Sample.beach; Sample.forest];
                  EnrichmentSettled 1 (Rejected Sample.offline);
                  FilesSelected [Sample.beach];
                  EnrichmentSettled 0 (Fulfilled Sample.dusk)] in
  completed (processingProgress (app w)) <= total (processingProgress (app w))
  /\ total (processingProgress (app w)) - completed (processingProgress (app w))
     = length (inFlight w).
Proof.
  apply (proj2 (proj2 progress_counter_consistent)).
  now eapply reachable_after.
Defined.

(** ** Loading and error exclude each other *)

Lemma exclusive_guarded_map (hit : Photo -> bool) (change : Photo -> Photo)
    (l : list Photo) :
  (forall p, exclusive p -> exclusive (change p)) ->
  Forall exclusive l ->
  Forall exclusive (map (fun p => if hit p then change p else p) l).
Proof.
  intros Hc H. apply Forall_map. eapply Forall_impl; [|exact H].
  intros p Hp. simpl. destruct (hit p); [now apply Hc | assumption].
Qed.

Lemma exclusive_filter (keep : Photo -> bool) (l : list Photo) :
  Forall exclusive l -> Forall exclusive (filter keep l).
Proof.
  rewrite !Forall_forall. intros H p Hp.
  apply filter_In in Hp as [Hp _]. now apply H.
Qed.

Lemma exclusive_newPhotos (files : list Selected) :
  Forall exclusive (newPhotosOf files).
Proof.
  unfold newPhotosOf. apply Forall_map. apply Forall_forall.
  intros f _ _. reflexivity.
Qed.

Lemma exclusive_imported (imported : list Photo) :
  importContract imported = true -> Forall exclusive imported.
Proof.
  unfold importContract. rewrite forallb_forall, Forall_forall.
  intros H p Hp Hl. apply H in Hp. rewrite Hl in Hp. discriminate.
Qed.

Ltac exclusive_map :=
  apply exclusive_guarded_map;
  [ let p := fresh "p" in let Hp := fresh "Hp" in
    intros p Hp; unfold exclusive in *; simpl; try discriminate; exact Hp
  | assumption ].

Lemma exclusive_processPhotoContent (newPhoto : Photo) (r : Settled Details)
    (s : State) :
  Forall exclusive (photos s) ->
  Forall exclusive (photos (processPhotoContent newPhoto r s)).
Proof.
  intros H. destruct r as [e|d]; simpl;
    unfold enrichmentFailed, enrichmentSucceeded; exclusive_map.
Qed.

Lemma exclusive_deliver (c : PhotoCard.Callback) (s : State) :
  Forall exclusive (photos s) -> Forall exclusive (photos (deliver c s)).
Proof.
  intros H. destruct c; simpl; try assumption; exclusive_map.
Qed.

Lemma exclusive_confirmDelete (s : State) :
  Forall exclusive (photos s) -> Forall exclusive (photos (confirmDelete s)).
Proof.
  intros H. unfold confirmDelete.
  destruct (photoToDelete s) as [target|]; [|assumption].
  destruct (negb (truthy target)); [assumption|].
  simpl. now apply exclusive_filter.
Qed.

Lemma exclusive_handleAlbumNameChange (o n : jsstring) (s : State) :
  Forall exclusive (photos s) ->
  Forall exclusive (photos (handleAlbumNameChange o n s)).
Proof.
  intros H. unfold handleAlbumNameChange.
  destruct (negb (truthy (trim n))); simpl; [assumption|]. exclusive_map.
Qed.

Lemma exclusive_handleSaveAlbumName (s : State) :
  Forall exclusive (photos s) ->
  Forall exclusive (photos (handleSaveAlbumName s)).
Proof.
  intros H. unfold handleSaveAlbumName.
  destruct (editingAlbum s); [|assumption].
  now apply exclusive_handleAlbumNameChange.
Qed.

Lemma step_exclusive (w : World) (e : Event) (w' : World) :
  Forall exclusive (photos (app w)) -> step w e = Some w' ->
  Forall exclusive (photos (app w')).
Proof.
  intros H Hstep. destruct e; simpl in Hstep.
  - injection Hstep as <-. simpl. apply Forall_app. split; [assumption|].
    apply exclusive_newPhotos.
  - destruct (nth_error (inFlight w) n); [|discriminate].
    injection Hstep as <-. now apply exclusive_processPhotoContent.
  - destruct (resetTimer w); [|discriminate]. now injection Hstep as <-.
  - destruct (importContract imported) eqn:Hc; [|discriminate].
    injection Hstep as <-. simpl. unfold handleImportSelected.
    destruct (0 <? length imported); [|assumption]. simpl.
    apply Forall_app. split; [assumption|]. now apply exclusive_imported.
  - injection Hstep as <-. now apply exclusive_deliver.
  - injection Hstep as <-. now apply exclusive_confirmDelete.
  - now injection Hstep as <-.
  - now injection Hstep as <-.
  - destruct (editingAlbum (app w)); [|discriminate]. now injection Hstep as <-.
  - injection Hstep as <-. now apply exclusive_handleSaveAlbumName.
  - injection Hstep as <-. simpl. unfold handleAlbumKeyDown.
    destruct (key === lit "Enter"), (key === lit "Escape"); simpl;
      try assumption; now apply exclusive_handleSaveAlbumName.
  - now injection Hstep as <-.
  - injection Hstep as <-. constructor.
  - now injection Hstep as <-.
Qed.

Lemma reachable_exclusive (w : World) :
  reachable w -> Forall exclusive (photos (app w)).
Proof.
  induction 1 as [|w e w' _ IH Hstep]; [constructor|].
  now apply (step_exclusive w e).
Qed.

(** In a reachable state, a record that is still loading when its
    enrichment succeeds has no error afterwards. *)
Lemma success_on_loading_record_has_no_error
    (w : World) (newPhoto : Photo) (d : Details) (i : nat) (p : Photo) :
  reachable w ->
  nth_error (photos (app w)) i = Some p ->
  id p = id newPhoto -> isLoading p = true ->
  exists p',
    nth_error (photos (processPhotoContent newPhoto (Fulfilled d) (app w))) i
    = Some p'
    /\ error p' = None /\ isLoading p' = false.
Proof.
  intros Hw Hi Hid Hl.
  assert (He : error p = None).
  { apply reachable_exclusive in Hw. rewrite Forall_forall in Hw.
    apply (Hw p); [now apply (nth_error_In _ i) | assumption]. }
  simpl. unfold enrichmentSucceeded. rewrite nth_error_map, Hi. simpl.
  apply strict_eq_true_iff in Hid. rewrite Hid.
  eexists. split; [reflexivity|]. now split.
Qed.

(** C4.  In every reachable state of the application no record of the
    registry has [isLoading = true] together with an [error] (empty or
    not), and every step preserves this: the creation of records on
    upload, the success and the failure of an enrichment, the edits of
    title, caption and tags, the deletion, the album rename, the import
    and the new photobook. *)
Theorem loading_excludes_error :
  (forall w, reachable w -> Forall exclusive (photos (app w)))
  /\ (forall w e w',
         Forall exclusive (photos (app w)) -> step w e = Some w' ->
         Forall exclusive (photos (app w'))).
Proof.
  split; [exact reachable_exclusive | exact step_exclusive].
Qed.

Lemma loading_excludes_error_witness :
  Forall exclusive
    (photos (app (after [FilesSelected [Sample.beach; Sample.forest];
                         EnrichmentSettled 0 (Rejected Sample.offline);
                         CardCallback (PhotoCard.onTitleChange
                                         (lit "7f3a-01") (lit "Bay"))]))).
Proof.
  apply (proj1 loading_excludes_error).
  now eapply reachable_after.
Defined.

(** ** The enrichment client *)

Section ClientProperties.

Import GeminiService.

Variable JSON_parse : jsstring -> jsstring + JsonValue.

Lemma catchClause_messages (e : Thrown) :
  catchClause e = ThrowError Error msg_not_json
  \/ catchClause e = ThrowError Error msg_generic.
Proof. unfold catchClause. destruct (instanceof_SyntaxError e); auto. Qed.

(** Whatever the client rejects with is an [Error] whose message is one
    of three fixed sentences, so [errorMessage] of it is that sentence. *)
Lemma generatePhotoDetails_rejections
    (API_KEY : option jsstring) (reply : Settled (option jsstring))
    (e : Thrown) :
  generatePhotoDetails JSON_parse API_KEY reply = Rejected e ->
  In (errorMessage e) [msg_no_api_key; msg_not_json; msg_generic]
  /\ e = ThrowError Error (errorMessage e)
  /\ truthy (errorMessage e) = true.
Proof.
  unfold generatePhotoDetails.
  destruct (negb (truthy_opt API_KEY)).
  - intros H. injection H as <-. simpl. auto.
  - destruct (tryBlock JSON_parse reply) as [e0|v]; [|discriminate].
    intros H. injection H as <-.
    destruct (catchClause_messages e0) as [-> | ->]; simpl; auto.
Qed.

Lemma validShape_true_iff (result : JsonValue) :
  validShape result = true <->
  exists props t c a items,
    result = JObject props
    /\ lookup props (lit "title") = Some (JString t)
    /\ lookup props (lit "caption") = Some (JString c)
    /\ lookup props (lit "album") = Some (JString a)
    /\ lookup props (lit "tags") = Some (JArray items).
Proof.
  unfold validShape, get. split.
  - destruct result as [| | | | |props]; try discriminate.
    intros H. apply andb_true_iff in H as [H Htags].
    apply andb_true_iff in H as [H Halbum].
    apply andb_true_iff in H as [Htitle Hcaption].
    destruct (lookup props (lit "title")) as [[]|] eqn:Et; try discriminate.
    destruct (lookup props (lit "caption")) as [[]|] eqn:Ec; try discriminate.
    destruct (lookup props (lit "album")) as [[]|] eqn:Ea; try discriminate.
    destruct (lookup props (lit "tags")) as [[]|] eqn:Ei; try discriminate.
    exists props. do 4 eexists. repeat split; eassumption.
  - intros (props & t & c & a & items & -> & Ht & Hc & Ha & Hi).
    now rewrite Ht, Hc, Ha, Hi.
Qed.

(** C5.  With a credential set, the client fulfils exactly when the
    response text parses to an object whose [title], [caption] and [album]
    are strings and whose [tags] is an array, and then it returns that
    object: the shape is validated.  But a response of any other shape is
    rejected with the very error a failed transport is rejected with (the
    generic "Failed to generate content from AI. Please try again."): the
    [throw] of "Invalid response format from AI." sits inside the [try]
    and is replaced by the [catch] clause, so the two failures cannot be
    told apart. *)
Theorem malformed_response_is_reported_as_generic_failure
    (API_KEY : option jsstring) (text : jsstring) (result : JsonValue) :
  truthy_opt API_KEY = true ->
  JSON_parse (trim text) = inr result ->
  (generatePhotoDetails JSON_parse API_KEY (Fulfilled (Some text))
   = Fulfilled result
   <-> validShape result = true)
  /\ (validShape result = false ->
      generatePhotoDetails JSON_parse API_KEY (Fulfilled (Some text))
      = Rejected (ThrowError Error msg_generic)
      /\ forall e,
          instanceof_SyntaxError e = false ->
          generatePhotoDetails JSON_parse API_KEY (Rejected e)
          = generatePhotoDetails JSON_parse API_KEY (Fulfilled (Some text))).
Proof.
  intros Hkey Hparse. unfold generatePhotoDetails. rewrite Hkey. simpl.
  rewrite Hparse.
  assert (Hbad : validShape result = false ->
                 match
                   match result with
                   | JNull => Rejected (ThrowError TypeError msg_title_of_null)
                   | _ => if validShape result then Fulfilled result
                          else Rejected (ThrowError Error msg_invalid_format)
                   end
                 with
                 | Rejected error => Rejected (catchClause error)
                 | Fulfilled r => Fulfilled r
                 end = Rejected (ThrowError Error msg_generic)).
  { intros Hv. destruct result; try reflexivity; rewrite Hv; reflexivity. }
  split.
  - split.
    + intros H. destruct (validShape result) eqn:Hv; [reflexivity|].
      rewrite (Hbad eq_refl) in H. discriminate.
    + intros Hv. destruct result; try discriminate; now rewrite Hv.
  - intros Hv. rewrite (Hbad Hv). split; [reflexivity|].
    intros e He. unfold catchClause. now rewrite He.
Qed.

End ClientProperties.

Lemma malformed_response_witness :
  GeminiService.generatePhotoDetails Sample.parse (Some (lit "key"))
    (Fulfilled (Some Sample.noTagsText))
  = Rejected (ThrowError Error GeminiService.msg_generic)
  /\ GeminiService.generatePhotoDetails Sample.parse (Some (lit "key"))
       (Rejected Sample.networkDown)
     = GeminiService.generatePhotoDetails Sample.parse (Some (lit "key"))
         (Fulfilled (Some Sample.noTagsText)).
Proof.
  destruct (proj2 (malformed_response_is_reported_as_generic_failure
                     Sample.parse (Some (lit "key")) Sample.noTagsText
                     Sample.noTagsValue eq_refl eq_refl) eq_refl)
    as [H1 H2].
  split; [exact H1 | exact (H2 Sample.networkDown eq_refl)].
Defined.

(** ** The album projection *)

Ltac eq_cases a b :=
  let E := fresh "E" in
  destruct (a === b) eqn:E;
  [ apply strict_eq_true_iff in E | apply strict_eq_false_iff in E ].

Lemma own_push (g : Grouped) (k : jsstring) (ph : Photo) (k' : jsstring) :
  own (push g k ph) k'
  = if k === k' then option_map (fun arr => arr ++ [ph]) (own g k')
    else own g k'.
Proof.
  induction g as [|[k0 arr] g IH]; simpl.
  - now destruct (k === k').
  - eq_cases k0 k; simpl.
    + subst k0. eq_cases k k'; reflexivity.
    + eq_cases k0 k'.
      * subst k0. apply strict_eq_false_iff in E. now rewrite strict_eq_sym, E.
      * exact IH.
Qed.

Lemma keys_push (g : Grouped) (k : jsstring) (ph : Photo) :
  map fst (push g k ph) = map fst g.
Proof.
  induction g as [|[k0 arr] g IH]; simpl; [reflexivity|].
  destruct (k0 === k); simpl; [reflexivity | now f_equal].
Qed.

Lemma own_app_fresh (g : Grouped) (k : jsstring) (arr : list Photo)
    (k' : jsstring) :
  own g k = None ->
  own (g ++ [(k, arr)]) k' = if k === k' then Some arr else own g k'.
Proof.
  induction g as [|[k0 a0] g IH]; simpl; intros H.
  - reflexivity.
  - eq_cases k0 k; [discriminate|].
    eq_cases k0 k'.
    + subst k0. apply strict_eq_false_iff in E. now rewrite strict_eq_sym, E.
    + now apply IH.
Qed.

Lemma own_None_iff (g : Grouped) (k : jsstring) :
  own g k = None <-> ~ In k (map fst g).
Proof.
  induction g as [|[k0 a0] g IH]; simpl.
  - tauto.
  - eq_cases k0 k.
    + split; [discriminate | tauto].
    + rewrite IH. tauto.
Qed.

Lemma own_Some_iff (g : Grouped) (k : jsstring) (arr : list Photo) :
  NoDup (map fst g) -> (own g k = Some arr <-> In (k, arr) g).
Proof.
  induction g as [|[k0 a0] g IH]; simpl; intros Hnd.
  - split; [discriminate | tauto].
  - inversion Hnd as [|? ? Hnotin Hnd']; subst.
    eq_cases k0 k.
    + subst k0. split.
      * intros H. injection H as ->. now left.
      * intros [H|H]; [congruence|].
        exfalso. apply Hnotin. now apply (in_map fst) in H.
    + rewrite (IH Hnd'). split; [tauto|].
      intros [H|H]; [congruence | assumption].
Qed.

(** One iteration of the loop, when it does not throw. *)
Lemma groupPhoto_own (g g' : Grouped) (ph : Photo) (k : jsstring) :
  groupPhoto g ph = inr g' ->
  own g' k
  = if albumName ph === k
    then Some (match own g k with Some arr => arr ++ [ph] | None => [ph] end)
    else own g k.
Proof.
  unfold groupPhoto. destruct (own g (albumName ph)) as [arr|] eqn:Hown.
  - intros H. injection H as <-. rewrite own_push.
    eq_cases (albumName ph) k; [|reflexivity].
    subst k. now rewrite Hown.
  - destruct (inherited (albumName ph)); [discriminate|].
    intros H. injection H as <-. rewrite own_push.
    rewrite (own_app_fresh _ _ _ _ Hown).
    eq_cases (albumName ph) k; [|reflexivity].
    subst k. now rewrite Hown.
Qed.

Lemma groupPhoto_keys (g g' : Grouped) (ph : Photo) :
  groupPhoto g ph = inr g' ->
  map fst g' = map fst g
  \/ (~ In (albumName ph) (map fst g)
      /\ inherited (albumName ph) = false
      /\ map fst g' = map fst g ++ [albumName ph]).
Proof.
  unfold groupPhoto. destruct (own g (albumName ph)) as [arr|] eqn:Hown.
  - intros H. injection H as <-. left. apply keys_push.
  - destruct (inherited (albumName ph)) eqn:Hi; [discriminate|].
    intros H. injection H as <-. right.
    split; [now apply own_None_iff|]. split; [reflexivity|].
    now rewrite keys_push, map_app.
Qed.

Lemma groupPhoto_NoDup (g g' : Grouped) (ph : Photo) :
  groupPhoto g ph = inr g' -> NoDup (map fst g) -> NoDup (map fst g').
Proof.
  intros H Hnd. destruct (groupPhoto_keys _ _ _ H) as [-> | (Hnotin & _ & ->)].
  - assumption.
  - apply NoDup_app; [assumption | repeat constructor; intros [] |].
    intros x Hx [<-|[]]. contradiction.
Qed.

Lemma forEach_own (ps : list Photo) (g g' : Grouped) (k : jsstring) :
  forEach ps g = inr g' ->
  own g' k
  = match own g k, shown k ps with
    | Some arr, l => Some (arr ++ l)
    | None, [] => None
    | None, l => Some l
    end.
Proof.
  revert g; induction ps as [|ph ps IH]; simpl; intros g H.
  - injection H as <-. destruct (own g k); [now rewrite app_nil_r | reflexivity].
  - destruct (groupPhoto g ph) as [e|g1] eqn:Hg; [discriminate|].
    rewrite (IH g1 H). rewrite (groupPhoto_own _ _ _ k Hg).
    unfold shown. simpl.
    destruct (albumName ph === k); simpl.
    + destruct (own g k) as [arr|]; simpl; [now rewrite <- app_assoc | reflexivity].
    + reflexivity.
Qed.

Lemma forEach_NoDup (ps : list Photo) (g g' : Grouped) :
  forEach ps g = inr g' -> NoDup (map fst g) -> NoDup (map fst g').
Proof.
  revert g; induction ps as [|ph ps IH]; simpl; intros g H Hnd.
  - now injection H as <-.
  - destruct (groupPhoto g ph) as [e|g1] eqn:Hg; [discriminate|].
    apply (IH g1 H). now apply (groupPhoto_NoDup g g1 ph).
Qed.

(** The loop throws exactly when some record is displayed under a name
    that [Object.prototype] answers for. *)
Lemma forEach_throws_iff (ps : list Photo) (g : Grouped) :
  (forall k, In k (map fst g) -> inherited k = false) ->
  (exists e, forEach ps g = inl e)
  <-> exists p, In p ps /\ inherited (albumName p) = true.
Proof.
  revert g; induction ps as [|ph ps IH]; simpl; intros g Hg.
  - split; [intros [e H]; discriminate | intros (p & [] & _)].
  - destruct (groupPhoto g ph) as [e|g1] eqn:E.
    + split; [|intros _; now exists e].
      intros _. exists ph. split; [now left|].
      unfold groupPhoto in E.
      destruct (own g (albumName ph)); [discriminate|].
      now destruct (inherited (albumName ph)).
    + assert (Hph : inherited (albumName ph) = false).
      { destruct (groupPhoto_keys _ _ _ E) as [Hk | (_ & Hi & _)]; [|exact Hi].
        unfold groupPhoto in E.
        destruct (own g (albumName ph)) as [arr|] eqn:Hown.
        - apply Hg. destruct (in_dec (list_eq_dec N.eq_dec)
                                (albumName ph) (map fst g)) as [Hin|Hout];
            [assumption|].
          apply own_None_iff in Hout. congruence.
        - now destruct (inherited (albumName ph)). }
      assert (Hg1 : forall k, In k (map fst g1) -> inherited k = false).
      { intros k Hk.
        destruct (groupPhoto_keys _ _ _ E) as [Heq | (_ & _ & Heq)];
          rewrite Heq in Hk; [now apply Hg|].
        apply in_app_or in Hk as [Hk|[<-|[]]]; [now apply Hg | exact Hph]. }
      rewrite (IH g1 Hg1). split.
      * intros (p & Hp & Hi). exists p. split; [now right | exact Hi].
      * intros (p & [<-|Hp] & Hi); [congruence|]. now exists p.
Qed.

Lemma groupPhoto_error (g : Grouped) (ph : Photo) (e : Thrown) :
  groupPhoto g ph = inl e ->
  e = ThrowError TypeError msg_push_not_a_function.
Proof.
  unfold groupPhoto. destruct (own g (albumName ph)); [discriminate|].
  destruct (inherited (albumName ph)); [|discriminate]. congruence.
Qed.

Lemma forEach_error (ps : list Photo) (g : Grouped) (e : Thrown) :
  forEach ps g = inl e ->
  e = ThrowError TypeError msg_push_not_a_function.
Proof.
  revert g; induction ps as [|ph ps IH]; simpl; intros g H; [discriminate|].
  destruct (groupPhoto g ph) as [e1|g1] eqn:E.
  - injection H as <-. now apply (groupPhoto_error g ph).
  - now apply (IH g1).
Qed.

(** [Object.entries] and the sort only reorder the entries. *)
Lemma insertIndexed_perm (e : jsstring * list Photo) (l : Grouped) :
  Permutation (insertIndexed e l) (e :: l).
Proof.
  induction l as [|e' l IH]; simpl; [reflexivity|].
  destruct (indexOf e <=? indexOf e')%N; [reflexivity|].
  rewrite IH. apply perm_swap.
Qed.

Lemma filter_split_perm {A} (f : A -> bool) (l : list A) :
  Permutation (filter f l ++ filter (fun x => negb (f x)) l) l.
Proof.
  induction l as [|x l IH]; simpl; [reflexivity|].
  destruct (f x); simpl.
  - now constructor.
  - rewrite <- Permutation_middle. now constructor.
Qed.

Lemma Object_entries_perm (g : Grouped) : Permutation (Object_entries g) g.
Proof.
  unfold Object_entries.
  rewrite <- (filter_split_perm isIndexKey g) at 3.
  apply Permutation_app_tail.
  induction (filter isIndexKey g) as [|e l IH]; simpl; [reflexivity|].
  rewrite insertIndexed_perm. now constructor.
Qed.

Section ProjectionProperties.

Variable localeCompare : jsstring -> jsstring -> Z.

Lemma insertEntry_perm (e : jsstring * list Photo) (l : Grouped) :
  Permutation (insertEntry localeCompare e l) (e :: l).
Proof.
  induction l as [|e' l IH]; simpl; [reflexivity|].
  destruct (0 <? localeCompare (fst e) (fst e'))%Z; [|reflexivity].
  rewrite IH. apply perm_swap.
Qed.

Lemma sortEntries_perm (l : Grouped) :
  Permutation (sortEntries localeCompare l) l.
Proof.
  induction l as [|e l IH]; simpl; [reflexivity|].
  rewrite insertEntry_perm. now constructor.
Qed.

(** The comparator is consistent: when [a] sorts after [b], [b] does not
    sort after [a]. *)
Hypothesis localeCompare_consistent :
  forall a b, (0 < localeCompare a b)%Z -> (localeCompare b a <= 0)%Z.

Lemma insertEntry_sorted (e : jsstring * list Photo) (l : Grouped) :
  Sorted (inOrder localeCompare) l -> Sorted (inOrder localeCompare) (insertEntry localeCompare e l).
Proof.
  induction l as [|e' l IH]; simpl; intros Hs.
  - repeat constructor.
  - inversion Hs as [|? ? Hs' Hhd]; subst.
    destruct (0 <? localeCompare (fst e) (fst e'))%Z eqn:E.
    + apply Z.ltb_lt in E. constructor; [now apply IH|].
      destruct l as [|e'' l]; simpl.
      * constructor. now apply localeCompare_consistent.
      * destruct (0 <? localeCompare (fst e) (fst e''))%Z.
        -- constructor. now inversion Hhd.
        -- constructor. now apply localeCompare_consistent.
    + apply Z.ltb_ge in E. constructor; [assumption|]. now constructor.
Qed.

Lemma sortEntries_sorted (l : Grouped) :
  Sorted (inOrder localeCompare) (sortEntries localeCompare l).
Proof.
  induction l as [|e l IH]; simpl; [constructor|].
  now apply insertEntry_sorted.
Qed.

End ProjectionProperties.

(** When the projection returns, its groups are the non-empty classes of
    the registry under [albumName], each in registry order and under a
    name of its own, and the array is sorted by [localeCompare]. *)
Lemma albums_groups_by_name
    (localeCompare : jsstring -> jsstring -> Z)
    (registry : list Photo) (groups : Grouped) :
  albums localeCompare registry = inr groups ->
  NoDup (map fst groups)
  /\ (forall k arr,
         In (k, arr) groups <-> arr = shown k registry /\ arr <> [])
  /\ ((forall a b, (0 < localeCompare a b)%Z -> (localeCompare b a <= 0)%Z) ->
      Sorted (inOrder localeCompare) groups).
Proof.
  unfold albums. destruct (forEach registry []) as [e|g] eqn:Hg; [discriminate|].
  intros H. injection H as <-.
  assert (Hperm : Permutation (sortEntries localeCompare (Object_entries g)) g).
  { rewrite sortEntries_perm. apply Object_entries_perm. }
  assert (Hnd : NoDup (map fst g)).
  { apply (forEach_NoDup registry [] g Hg). constructor. }
  split; [|split].
  - apply (Permutation_NoDup (l := map fst g)); [|assumption].
    apply Permutation_map. now symmetry.
  - intros k arr.
    rewrite (Permutation_in' (eq_refl (k, arr)) Hperm).
    rewrite <- (own_Some_iff g k arr Hnd).
    rewrite (forEach_own registry [] g k Hg). simpl.
    destruct (shown k registry) as [|p l]; split.
    + discriminate.
    + intros [-> H]. congruence.
    + intros H. injection H as <-. split; [reflexivity | discriminate].
    + intros [-> _]. reflexivity.
  - intros Hc. now apply sortEntries_sorted.
Qed.

Lemma albums_throws_iff
    (localeCompare : jsstring -> jsstring -> Z) (registry : list Photo) :
  albums localeCompare registry
  = inl (ThrowError TypeError msg_push_not_a_function)
  <-> exists p, In p registry /\ inherited (albumName p) = true.
Proof.
  rewrite <- (forEach_throws_iff registry []) by (intros k []).
  unfold albums. destruct (forEach registry []) as [e|g] eqn:E.
  - apply forEach_error in E as ->. split; [eauto | reflexivity].
  - split; [discriminate | intros [e H]; discriminate].
Qed.

Lemma byCodeUnit_consistent (a b : jsstring) :
  (0 < Sample.byCodeUnit a b)%Z -> (Sample.byCodeUnit b a <= 0)%Z.
Proof.
  revert b; induction a as [|x a IH]; intros [|y b]; simpl; try lia.
  rewrite (N.compare_antisym x y).
  destruct (x ?= y)%N; simpl; try lia. apply IH.
Qed.

(** Three uploads, one enriched as Nature, one as Family, one still
    loading: three groups, the placeholder first. *)
Example albums_of_three_uploads :
  let w := after [FilesSelected [Sample.beach; Sample.forest; Sample.harbour];
                  EnrichmentSettled 0 (Fulfilled Sample.dusk);
                  EnrichmentSettled 0 (Fulfilled Sample.picnic)] in
  exists groups,
    albums Sample.byCodeUnit (photos (app w)) = inr groups
    /\ map fst groups = [lit "..."; lit "Family"; lit "Nature"]
    /\ map (fun g => length (snd g)) groups = [1; 1; 1]
    /\ Sorted (inOrder Sample.byCodeUnit) groups.
Proof.
  intros w.
  destruct (albums Sample.byCodeUnit (photos (app w))) as [e|groups] eqn:E;
    [vm_compute in E; discriminate|].
  exists groups. split; [reflexivity|].
  pose proof (albums_groups_by_name _ _ _ E) as (_ & _ & Hsorted).
  specialize (Hsorted byCodeUnit_consistent).
  vm_compute in E. injection E as <-.
  split; [reflexivity|]. split; [reflexivity | exact Hsorted].
Qed.

(** C9.  A registry reached by enriching one upload and renaming its album
    to [constructor]: the projection does not return the group
    [constructor]; line 215 finds the inherited [Object.prototype.constructor],
    takes the group as present, and line 218 throws a TypeError. *)
Theorem albums_throws_on_inherited_name
    (localeCompare : jsstring -> jsstring -> Z) :
  let w := after [FilesSelected [Sample.beach];
                  EnrichmentSettled 0 (Fulfilled Sample.dusk);
                  AlbumClicked (lit "Nature");
                  AlbumInput (lit "constructor");
                  AlbumKeyDown (lit "Enter")] in
  map album (photos (app w)) = [lit "constructor"]
  /\ albums localeCompare (photos (app w))
     = inl (ThrowError TypeError msg_push_not_a_function).
Proof. split; reflexivity. Qed.

(** ** Album rename *)

(** The record [p] after a rename of [oldName] to the trimmed name [t]. *)
Definition renamed (oldName t : jsstring) (p : Photo) : Photo :=
  if album p === oldName
  then mkPhoto (id p) (src p) (file p) (title p) (caption p) t
               (tags p) (isLoading p) (error p)
  else p.

Lemma handleAlbumNameChange_photos (oldName newName : jsstring) (s : State) :
  photos (handleAlbumNameChange oldName newName s)
  = if truthy (trim newName)
    then map (renamed oldName (trim newName)) (photos s)
    else photos s.
Proof.
  unfold handleAlbumNameChange. now destruct (truthy (trim newName)).
Qed.

Lemma filter_none {A} (f : A -> bool) (l : list A) :
  (forall x, f x = false) -> filter f l = [].
Proof.
  intros H. induction l as [|x l IH]; simpl; [reflexivity|]. now rewrite H.
Qed.

Lemma albumName_assigned (p : Photo) :
  album p <> [] -> albumName p = album p.
Proof.
  unfold albumName. destruct (album p); [congruence | reflexivity].
Qed.

Lemma shown_map_renamed (oldName t k : jsstring) (l : list Photo) :
  oldName <> [] -> t <> [] ->
  shown k (map (renamed oldName t) l)
  = map (renamed oldName t)
        (filter (fun p => if album p === oldName then t === k
                          else albumName p === k) l).
Proof.
  intros Ho Ht. unfold shown. induction l as [|p l IH]; simpl; [reflexivity|].
  assert (E : (albumName (renamed oldName t p) === k)
              = (if album p === oldName then t === k else albumName p === k)).
  { unfold renamed. destruct (album p === oldName); [|reflexivity].
    rewrite albumName_assigned; simpl; [reflexivity | assumption]. }
  rewrite E.
  destruct (if album p === oldName then t === k else albumName p === k);
    simpl; now rewrite IH.
Qed.

(** C6.  A rename whose new name trims to the empty string leaves the
    registry as it is.  Otherwise the registry keeps its length and order,
    every record whose album is [oldName] (the same code units) has its
    album replaced by the trimmed new name and its other fields as they
    were, and every other record is as it was.  Renaming ['Nature'] to
    ['Family']: no record is left under ['Nature'], every record that was
    under either name is under ['Family'], and the group shown as
    ['Family'] is, in registry order, the records that were shown as
    ['Nature'] or as ['Family']. *)
Theorem album_rename_updates_matching_records
    (oldName newName : jsstring) (s : State) :
  let s' := handleAlbumNameChange oldName newName s in
  (trim newName = [] -> photos s' = photos s)
  /\ (trim newName <> [] ->
      length (photos s') = length (photos s)
      /\ forall i p,
          nth_error (photos s) i = Some p ->
          nth_error (photos s') i
          = Some (if album p === oldName
                  then mkPhoto (id p) (src p) (file p) (title p) (caption p)
                               (trim newName) (tags p) (isLoading p) (error p)
                  else p))
  /\ (oldName = lit "Nature" -> newName = lit "Family" ->
      (forall p', In p' (photos s') -> album p' <> lit "Nature")
      /\ (forall i p,
             nth_error (photos s) i = Some p ->
             album p = lit "Nature" \/ album p = lit "Family" ->
             exists p',
               nth_error (photos s') i = Some p'
               /\ album p' = lit "Family"
               /\ albumName p' = lit "Family")
      /\ shown (lit "Nature") (photos s') = []
      /\ shown (lit "Family") (photos s')
         = map (renamed (lit "Nature") (lit "Family"))
               (filter (fun p => (albumName p === lit "Nature")
                                 || (albumName p === lit "Family"))
                       (photos s))).
Proof.
  intros s'. subst s'. rewrite handleAlbumNameChange_photos.
  split; [|split].
  - intros H. now rewrite H.
  - intros H.
    destruct (truthy (trim newName)) eqn:Ht;
      [|apply truthy_false_iff in Ht; contradiction].
    rewrite length_map. split; [reflexivity|].
    intros i p Hi. now rewrite nth_error_map, Hi.
  - intros -> ->. change (truthy (trim (lit "Family"))) with true.
    change (trim (lit "Family")) with (lit "Family"). cbv iota.
    split; [|split; [|split]].
    + intros p' Hp'. apply in_map_iff in Hp' as (p & <- & _).
      unfold renamed. eq_cases (album p) (lit "Nature"); [discriminate | assumption].
    + intros i p Hi Hp. rewrite nth_error_map, Hi. simpl.
      eexists. split; [reflexivity|].
      unfold renamed. destruct Hp as [Hp|Hp]; rewrite Hp; simpl;
        [split; reflexivity|].
      split; [assumption|]. unfold albumName. now rewrite Hp.
    + rewrite shown_map_renamed by discriminate.
      rewrite filter_none; [reflexivity|].
      intros p.
      eq_cases (album p) (lit "Nature"); [reflexivity|].
      destruct (album p) eqn:Ea.
      * unfold albumName. rewrite Ea. simpl. now destruct (isLoading p).
      * rewrite albumName_assigned by congruence. rewrite Ea.
        now apply strict_eq_false_iff.
    + rewrite shown_map_renamed by discriminate. f_equal.
      apply filter_ext. intros p.
      eq_cases (album p) (lit "Nature").
      * rewrite albumName_assigned by (rewrite E; discriminate).
        now rewrite E.
      * destruct (album p) eqn:Ea.
        -- unfold albumName. rewrite Ea. simpl. now destruct (isLoading p).
        -- rewrite albumName_assigned by congruence. rewrite Ea.
           apply strict_eq_false_iff in E. now rewrite E.
Qed.

Lemma album_rename_witness :
  let s := app (after [FilesSelected [Sample.beach; Sample.forest];
                       EnrichmentSettled 0 (Fulfilled Sample.dusk);
                       EnrichmentSettled 0 (Fulfilled Sample.picnic)]) in
  photos (handleAlbumNameChange (lit "Nature") (lit "   ") s) = photos s
  /\ map album (photos s) = [lit "Nature"; lit "Family"]
  /\ shown (lit "Nature")
       (photos (handleAlbumNameChange (lit "Nature") (lit "Family") s)) = []
  /\ map id (shown (lit "Family")
       (photos (handleAlbumNameChange (lit "Nature") (lit "Family") s)))
     = [lit "7f3a-01"; lit "7f3a-02"].
Proof.
  set (s := app (after [FilesSelected [Sample.beach; Sample.forest];
                        EnrichmentSettled 0 (Fulfilled Sample.dusk);
                        EnrichmentSettled 0 (Fulfilled Sample.picnic)])).
  split.
  - exact (proj1 (album_rename_updates_matching_records
                    (lit "Nature") (lit "   ") s) eq_refl).
  - split; [reflexivity|].
    destruct (proj2 (proj2 (album_rename_updates_matching_records
                              (lit "Nature") (lit "Family") s))
                eq_refl eq_refl) as (_ & _ & Hnature & Hfamily).
    split; [exact Hnature|]. rewrite Hfamily. reflexivity.
Defined.

(** C10.  A record whose stored album is the empty string is displayed
    under a placeholder (['...'] while it is loading, ['Uncategorized']
    otherwise).  A rename of a displayed placeholder group, with the
    placeholder as the old name and any new name, compares the old name
    with the stored album, so it leaves this record as it was and where it
    was; the record is still displayed under its placeholder, and whenever
    the projection of the new registry returns, the record is in the group
    of that placeholder. *)
Theorem placeholder_rename_skips_unassigned_records
    (oldName newName : jsstring) (s : State) (i : nat) (p : Photo) :
  oldName = lit "..." \/ oldName = lit "Uncategorized" ->
  nth_error (photos s) i = Some p ->
  album p = [] ->
  let s' := handleAlbumNameChange oldName newName s in
  albumName p = (if isLoading p then lit "..." else lit "Uncategorized")
  /\ nth_error (photos s') i = Some p
  /\ In p (shown (albumName p) (photos s'))
  /\ forall localeCompare groups,
       albums localeCompare (photos s') = inr groups ->
       exists arr, In (albumName p, arr) groups /\ In p arr.
Proof.
  intros Hold Hi Ha s'.
  assert (Hname : albumName p
                  = (if isLoading p then lit "..." else lit "Uncategorized")).
  { unfold albumName. now rewrite Ha. }
  assert (Hp : nth_error (photos s') i = Some p).
  { subst s'. rewrite handleAlbumNameChange_photos.
    destruct (truthy (trim newName)); [|assumption].
    rewrite nth_error_map, Hi. simpl. unfold renamed.
    rewrite Ha. now destruct Hold as [-> | ->]. }
  assert (Hshown : In p (shown (albumName p) (photos s'))).
  { apply filter_In. split; [now apply (nth_error_In _ i) | apply strict_eq_refl]. }
  repeat split; try assumption.
  intros localeCompare groups Hg.
  exists (shown (albumName p) (photos s')). split; [|assumption].
  apply (albums_groups_by_name localeCompare (photos s') groups Hg).
  split; [reflexivity|]. intros E. rewrite E in Hshown. destruct Hshown.
Qed.

Lemma placeholder_rename_witness :
  let s := app (after [FilesSelected [Sample.beach; Sample.forest];
                       EnrichmentSettled 1 (Rejected Sample.offline)]) in
  let s' := handleAlbumNameChange (lit "...") (lit "Trips") s in
  map album (photos s) = [[]; lit "Uncategorized"]
  /\ nth_error (photos s') 0 = Some Sample.beachPhoto
  /\ In Sample.beachPhoto (shown (lit "...") (photos s')).
Proof.
  split; [reflexivity|].
  destruct (placeholder_rename_skips_unassigned_records
              (lit "...") (lit "Trips")
              (app (after [FilesSelected [Sample.beach; Sample.forest];
                           EnrichmentSettled 1 (Rejected Sample.offline)]))
              0 Sample.beachPhoto (or_introl eq_refl) eq_refl eq_refl)
    as (_ & H1 & H2 & _).
  split; [exact H1 | exact H2].
Defined.

(** ** Tags *)

Lemma occurrences_absent (t : jsstring) (l : list jsstring) :
  ~ In t l -> occurrences t l = 0.
Proof.
  unfold occurrences. induction l as [|x l IH]; simpl; intros H; [reflexivity|].
  eq_cases x t; [exfalso; apply H; now left|].
  apply IH. intros Hin. apply H. now right.
Qed.

Lemma occurrences_app (t : jsstring) (l l' : list jsstring) :
  occurrences t (l ++ l') = occurrences t l + occurrences t l'.
Proof. unfold occurrences. now rewrite filter_app, length_app. Qed.

Lemma filter_keeps_all (t : jsstring) (l : list jsstring) :
  ~ In t l -> filter (fun tag => negb (tag === t)) l = l.
Proof.
  induction l as [|x l IH]; simpl; intros H; [reflexivity|].
  eq_cases x t; [exfalso; apply H; now left|].
  simpl. f_equal. apply IH. intros Hin. apply H. now right.
Qed.

(** C7.  For the card of a record of the registry and the tag typed into
    its input, trimmed: when the record already has that tag (the same
    code units), [handleAddTag] calls no prop and the registry stays as it
    is.  When the tag is not empty and the record does not have it, the
    record gets it appended, once; a second [handleAddTag] with the same
    input on the card of the updated record calls no prop, so the tag is
    there exactly once, and a tag list without duplicates stays without
    duplicates.  [handleRemoveTag] with a tag the record does not have
    passes the record's own tag list on, and the record stays as it is. *)
Theorem tag_addition_rejects_duplicates
    (photo : Photo) (r : PhotoCard.CardState) (s : State) (i : nat) :
  nth_error (photos s) i = Some photo ->
  let t := trim (PhotoCard.tagInput r) in
  let calls := snd (PhotoCard.fire r (PhotoCard.handleAddTag photo r)) in
  (In t (tags photo) -> calls = [] /\ deliverAll calls s = s)
  /\ (t <> [] -> ~ In t (tags photo) ->
      exists photo1,
        nth_error (photos (deliverAll calls s)) i = Some photo1
        /\ tags photo1 = tags photo ++ [t]
        /\ occurrences t (tags photo1) = 1
        /\ (NoDup (tags photo) -> NoDup (tags photo1))
        /\ forall r2,
            trim (PhotoCard.tagInput r2) = t ->
            snd (PhotoCard.fire r2 (PhotoCard.handleAddTag photo1 r2)) = []
            /\ PhotoCard.tagInput
                 (fst (PhotoCard.fire r2 (PhotoCard.handleAddTag photo1 r2)))
               = [])
  /\ (forall tagToRemove,
         ~ In tagToRemove (tags photo) ->
         let removal :=
           snd (PhotoCard.fire r (PhotoCard.handleRemoveTag photo tagToRemove)) in
         removal = [PhotoCard.onTagsChange (id photo) (tags photo)]
         /\ nth_error (photos (deliverAll removal s)) i = Some photo).
Proof.
  intros Hi t calls. subst calls.
  unfold PhotoCard.fire, PhotoCard.handleAddTag, PhotoCard.handleRemoveTag.
  fold t. split; [|split].
  - intros Hin. apply includes_true_iff in Hin. rewrite Hin.
    rewrite andb_false_r. simpl. now split.
  - intros Hne Hout.
    assert (Hinc : includes (tags photo) t = false).
    { destruct (includes (tags photo) t) eqn:E; [|reflexivity].
      apply includes_true_iff in E. contradiction. }
    assert (Htr : truthy t = true).
    { destruct (truthy t) eqn:E; [reflexivity|].
      apply truthy_false_iff in E. contradiction. }
    rewrite Hinc, Htr. simpl.
    rewrite nth_error_map, Hi. simpl. rewrite strict_eq_refl.
    eexists. split; [reflexivity|]. simpl.
    split; [reflexivity|]. split; [|split].
    + rewrite occurrences_app, (occurrences_absent t (tags photo) Hout).
      unfold occurrences. simpl. now rewrite strict_eq_refl.
    + intros Hnd. apply NoDup_app; [assumption | repeat constructor; intros [] |].
      intros x Hx [<-|[]]. contradiction.
    + intros r2 Hr2. rewrite Hr2.
      assert (Hnow : includes (tags photo ++ [t]) t = true).
      { apply includes_true_iff. apply in_or_app. right. now left. }
      rewrite Hnow, andb_false_r. simpl. now split.
  - intros tagToRemove Hout. simpl.
    rewrite (filter_keeps_all tagToRemove (tags photo) Hout).
    split; [reflexivity|].
    rewrite nth_error_map, Hi. simpl. rewrite strict_eq_refl.
    now destruct photo.
Qed.

Lemma tag_addition_witness :
  let s := app (after [FilesSelected [Sample.beach];
                       EnrichmentSettled 0 (Fulfilled Sample.dusk);
                       CardCallback (PhotoCard.onTagsChange (lit "7f3a-01") [])]) in
  let r := PhotoCard.mkCardState false [] false [] (lit " sunset ") in
  exists photo0 photo1,
    nth_error (photos s) 0 = Some photo0
    /\ tags photo0 = []
    /\ nth_error
         (photos (deliverAll
                    (snd (PhotoCard.fire r (PhotoCard.handleAddTag photo0 r))) s))
         0 = Some photo1
    /\ tags photo1 = [lit "sunset"]
    /\ snd (PhotoCard.fire r (PhotoCard.handleAddTag photo1 r)) = [].
Proof.
  eexists.
  destruct (proj1 (proj2
              (tag_addition_rejects_duplicates
                 (mkPhoto (lit "7f3a-01") (lit "blob:beach")
                          (mkFile (lit "beach.jpg") (lit "image/jpeg"))
                          (lit "Dusk") (lit "The sun goes down over the bay.")
                          (lit "Nature") [] false None)
                 (PhotoCard.mkCardState false [] false [] (lit " sunset "))
                 (app (after [FilesSelected [Sample.beach];
                              EnrichmentSettled 0 (Fulfilled Sample.dusk);
                              CardCallback
                                (PhotoCard.onTagsChange (lit "7f3a-01") [])]))
                 0 eq_refl))
              ltac:(discriminate) ltac:(intros []))
    as (photo1 & H1 & H2 & _ & _ & H3).
  exists photo1. split; [reflexivity|]. split; [reflexivity|].
  split; [exact H1|]. split; [exact H2|].
  exact (proj1 (H3 (PhotoCard.mkCardState false [] false [] (lit " sunset "))
                   eq_refl)).
Defined.

(** ** Title and caption edits *)

Section CardEdits.

Import PhotoCard.

Variable photo : Photo.
Variable r : CardState.

Lemma handleSaveCaption_calls :
  fire r (handleSaveCaption photo r)
  = (setIsEditingCaption false r,
     if trim (editedCaption r) === caption photo then []
     else [onCaptionChange (id photo) (trim (editedCaption r))]).
Proof.
  unfold fire, handleSaveCaption.
  now destruct (trim (editedCaption r) === caption photo).
Qed.

Lemma handleSaveTitle_calls :
  fire r (handleSaveTitle photo r)
  = (setIsEditingTitle false r,
     if truthy (trim (editedTitle r))
        && negb (trim (editedTitle r) === title photo)
     then [onTitleChange (id photo) (trim (editedTitle r))]
     else []).
Proof.
  unfold fire, handleSaveTitle.
  now destruct (truthy (trim (editedTitle r))
                && negb (trim (editedTitle r) === title photo)).
Qed.

Lemma handleCancelCaption_calls :
  fire r (handleCancelCaption photo)
  = (mkCardState false (caption photo) (isEditingTitle r) (editedTitle r)
                 (tagInput r), []).
Proof. reflexivity. Qed.

Lemma handleCancelTitle_calls :
  fire r (handleCancelTitle photo)
  = (mkCardState (isEditingCaption r) (editedCaption r) false (title photo)
                 (tagInput r), []).
Proof. reflexivity. Qed.

Lemma escape_cancels (event : KeyboardEvent) :
  key event = lit "Escape" ->
  fire r (handleCaptionKeyDown photo r event) = fire r (handleCancelCaption photo)
  /\ fire r (handleTitleKeyDown photo r event) = fire r (handleCancelTitle photo).
Proof.
  intros H. unfold fire, handleCaptionKeyDown, handleTitleKeyDown.
  rewrite H. split; reflexivity.
Qed.

Lemma accelerator_saves (event : KeyboardEvent) :
  key event = lit "Enter" ->
  fire r (handleTitleKeyDown photo r event) = fire r (handleSaveTitle photo r)
  /\ (metaKey event || ctrlKey event = true ->
      fire r (handleCaptionKeyDown photo r event)
      = fire r (handleSaveCaption photo r)).
Proof.
  intros H. unfold fire, handleCaptionKeyDown, handleTitleKeyDown.
  rewrite H. split; [reflexivity|]. intros ->. reflexivity.
Qed.

End CardEdits.

(** C8.  On the card of a record of the registry, with [c] and [t] the
    trimmed scratch caption and title.  Saving the caption calls
    [onCaptionChange] with [c] exactly when [c] is not the committed
    caption, and then the record's caption becomes [c]; otherwise no prop
    is called and the registry stays as it is.  Saving the title calls
    [onTitleChange] with [t] exactly when [t] is not empty and is not the
    committed title, and then the record's title becomes [t]; otherwise
    the registry stays as it is.  Cancelling calls no prop, so the
    registry stays as it is, sets the scratch value back to the committed
    one and leaves edit mode; the Escape key does what the cancel button
    does; Enter on the title, and Ctrl+Enter or Cmd+Enter on the caption,
    do what the save button does. *)
Theorem edits_commit_only_changes
    (photo : Photo) (r : PhotoCard.CardState) (s : State) (i : nat) :
  nth_error (photos s) i = Some photo ->
  let c := trim (PhotoCard.editedCaption r) in
  let t := trim (PhotoCard.editedTitle r) in
  let saveCaption := PhotoCard.fire r (PhotoCard.handleSaveCaption photo r) in
  let saveTitle := PhotoCard.fire r (PhotoCard.handleSaveTitle photo r) in
  let cancelCaption := PhotoCard.fire r (PhotoCard.handleCancelCaption photo) in
  let cancelTitle := PhotoCard.fire r (PhotoCard.handleCancelTitle photo) in
  (* confirm, caption *)
  (c <> caption photo ->
   snd saveCaption = [PhotoCard.onCaptionChange (id photo) c]
   /\ nth_error (photos (deliverAll (snd saveCaption) s)) i
      = Some (mkPhoto (id photo) (src photo) (file photo) (title photo) c
                      (album photo) (tags photo) (isLoading photo)
                      (error photo)))
  /\ (c = caption photo ->
      snd saveCaption = [] /\ deliverAll (snd saveCaption) s = s)
  (* confirm, title *)
  /\ (t <> [] -> t <> title photo ->
      snd saveTitle = [PhotoCard.onTitleChange (id photo) t]
      /\ nth_error (photos (deliverAll (snd saveTitle) s)) i
         = Some (mkPhoto (id photo) (src photo) (file photo) t (caption photo)
                         (album photo) (tags photo) (isLoading photo)
                         (error photo)))
  /\ (t = [] \/ t = title photo ->
      snd saveTitle = [] /\ deliverAll (snd saveTitle) s = s)
  (* cancel *)
  /\ (snd cancelCaption = [] /\ deliverAll (snd cancelCaption) s = s
      /\ PhotoCard.editedCaption (fst cancelCaption) = caption photo
      /\ PhotoCard.isEditingCaption (fst cancelCaption) = false)
  /\ (snd cancelTitle = [] /\ deliverAll (snd cancelTitle) s = s
      /\ PhotoCard.editedTitle (fst cancelTitle) = title photo
      /\ PhotoCard.isEditingTitle (fst cancelTitle) = false)
  (* keys *)
  /\ (forall event,
         PhotoCard.key event = lit "Escape" ->
         PhotoCard.fire r (PhotoCard.handleCaptionKeyDown photo r event)
         = cancelCaption
         /\ PhotoCard.fire r (PhotoCard.handleTitleKeyDown photo r event)
            = cancelTitle)
  /\ (forall event,
         PhotoCard.key event = lit "Enter" ->
         PhotoCard.fire r (PhotoCard.handleTitleKeyDown photo r event)
         = saveTitle
         /\ (PhotoCard.metaKey event || PhotoCard.ctrlKey event = true ->
             PhotoCard.fire r (PhotoCard.handleCaptionKeyDown photo r event)
             = saveCaption)).
Proof.
  intros Hi c t saveCaption saveTitle cancelCaption cancelTitle.
  subst saveCaption saveTitle cancelCaption cancelTitle.
  rewrite handleSaveCaption_calls, handleSaveTitle_calls,
    handleCancelCaption_calls, handleCancelTitle_calls.
  fold c t. simpl snd. simpl fst.
  refine (conj _ (conj _ (conj _ (conj _ (conj _ (conj _ (conj _ _))))))).
  - intros H. apply strict_eq_false_iff in H. rewrite H. simpl.
    split; [reflexivity|].
    rewrite nth_error_map, Hi. simpl. now rewrite strict_eq_refl.
  - intros H. apply strict_eq_true_iff in H. rewrite H. now split.
  - intros Hne H. apply strict_eq_false_iff in H.
    destruct (truthy t) eqn:Et; [|apply truthy_false_iff in Et; contradiction].
    rewrite H. simpl. split; [reflexivity|].
    rewrite nth_error_map, Hi. simpl. now rewrite strict_eq_refl.
  - intros [H|H].
    + apply truthy_false_iff in H. rewrite H. now split.
    + apply strict_eq_true_iff in H. rewrite H, andb_false_r. now split.
  - repeat split.
  - repeat split.
  - intros event H. rewrite <- handleCancelCaption_calls, <- handleCancelTitle_calls.
    now apply escape_cancels.
  - intros event H. unfold c, t.
    rewrite <- handleSaveCaption_calls, <- handleSaveTitle_calls.
    now apply accelerator_saves.
Qed.

Lemma edits_commit_witness :
  let s := app (after [FilesSelected [Sample.beach];
                       EnrichmentSettled 0 (Fulfilled Sample.dusk)]) in
  let r := PhotoCard.mkCardState true (lit "  Low tide at dusk. ")
                                 false (lit "Dusk") [] in
  exists photo,
    nth_error (photos s) 0 = Some photo
    /\ snd (PhotoCard.fire r (PhotoCard.handleSaveCaption photo r))
       = [PhotoCard.onCaptionChange (lit "7f3a-01") (lit "Low tide at dusk.")]
    /\ snd (PhotoCard.fire r (PhotoCard.handleSaveTitle photo r)) = []
    /\ fst (PhotoCard.fire r (PhotoCard.handleCancelCaption photo))
       = PhotoCard.mkCardState false (lit "The sun goes down over the bay.")
                               false (lit "Dusk") [].
Proof.
  eexists. split; [reflexivity|].
  pose proof (edits_commit_only_changes
                (mkPhoto (lit "7f3a-01") (lit "blob:beach")
                         (mkFile (lit "beach.jpg") (lit "image/jpeg"))
                         (lit "Dusk") (lit "The sun goes down over the bay.")
                         (lit "Nature")
                         [lit "sunset"; lit "beach"; lit "sea"] false None)
                (PhotoCard.mkCardState true (lit "  Low tide at dusk. ")
                                       false (lit "Dusk") [])
                (app (after [FilesSelected [Sample.beach];
                             EnrichmentSettled 0 (Fulfilled Sample.dusk)]))
                0 eq_refl) as (Hsave & _ & _ & Hkeep & _).
  split; [exact (proj1 (Hsave ltac:(discriminate)))|].
  split; [exact (proj1 (Hkeep (or_intror eq_refl)))|].
  reflexivity.
Defined.

(* ------------------------------------------------------------------ *)
(** * Further properties of the code *)

Import Frame.

(** ** The enrichment client, continued *)

(** X1.  Whatever way a call of the client fails (no credential, a failed
    transport, a response without text, text that is not JSON, JSON of the
    wrong shape), the record of the request ends with [isLoading] false,
    album ['Uncategorized'], no tags, and as its [error] one of the three
    sentences the client words itself; the sentence is not empty, and it
    is neither "Invalid response format from AI." nor the fallback
    "An unknown error occurred." of [processPhotoContent]. *)
Theorem failed_enrichment_shows_a_fixed_sentence
    (JSON_parse : jsstring -> jsstring + GeminiService.JsonValue)
    (API_KEY : option jsstring) (reply : Settled (option jsstring))
    (e : Thrown) (newPhoto : Photo) (s : State) (i : nat) (p : Photo) :
  GeminiService.generatePhotoDetails JSON_parse API_KEY reply = Rejected e ->
  nth_error (photos s) i = Some p ->
  id p = id newPhoto ->
  exists m,
    In m [GeminiService.msg_no_api_key; GeminiService.msg_not_json;
          GeminiService.msg_generic]
    /\ truthy m = true
    /\ (m === GeminiService.msg_invalid_format) = false
    /\ (m === lit "An unknown error occurred.") = false
    /\ nth_error (photos (processPhotoContent newPhoto (Rejected e) s)) i
       = Some (mkPhoto (id p) (src p) (file p) (title p) (caption p)
                       (lit "Uncategorized") [] false (Some m)).
Proof.
  intros Hrej Hi Hid.
  destruct (generatePhotoDetails_rejections JSON_parse API_KEY reply e Hrej)
    as (Hin & _ & Htruthy).
  exists (errorMessage e). split; [exact Hin|]. split; [exact Htruthy|].
  split; [|split].
  - destruct Hin as [<-|[<-|[<-|[]]]]; reflexivity.
  - destruct Hin as [<-|[<-|[<-|[]]]]; reflexivity.
  - simpl. unfold enrichmentFailed. rewrite nth_error_map, Hi. simpl.
    apply strict_eq_true_iff in Hid. now rewrite Hid.
Qed.

Lemma failed_enrichment_witness :
  let s := app (after [FilesSelected [Sample.beach; Sample.forest]]) in
  exists m,
    In m [GeminiService.msg_no_api_key; GeminiService.msg_not_json;
          GeminiService.msg_generic]
    /\ truthy m = true
    /\ (m === GeminiService.msg_invalid_format) = false
    /\ (m === lit "An unknown error occurred.") = false
    /\ nth_error (photos (processPhotoContent Sample.beachPhoto
                            (Rejected (ThrowError Error GeminiService.msg_generic))
                            s)) 0
       = Some (mkPhoto (lit "7f3a-01") (lit "blob:beach")
                       (mkFile (lit "beach.jpg") (lit "image/jpeg")) [] []
                       (lit "Uncategorized") [] false (Some m)).
Proof.
  exact (failed_enrichment_shows_a_fixed_sentence
           Sample.parse (Some (lit "key")) (Fulfilled (Some Sample.noTagsText))
           (ThrowError Error GeminiService.msg_generic) Sample.beachPhoto
           (app (after [FilesSelected [Sample.beach; Sample.forest]]))
           0 Sample.beachPhoto eq_refl eq_refl eq_refl).
Defined.

(** X2.  Which failure gets which sentence.  The client rejects with
    "API_KEY environment variable is not set." exactly when the credential
    is missing or empty, whatever the service would have answered.  It
    rejects with "Failed to parse AI response. The format was not valid
    JSON." exactly when the credential is set and a SyntaxError reached
    the [catch] clause: [JSON.parse] refused the trimmed text, or the
    transport itself rejected with a SyntaxError. *)
Theorem client_failure_sentences
    (JSON_parse : jsstring -> jsstring + GeminiService.JsonValue)
    (API_KEY : option jsstring) (reply : Settled (option jsstring)) :
  (GeminiService.generatePhotoDetails JSON_parse API_KEY reply
   = Rejected (ThrowError Error GeminiService.msg_no_api_key)
   <-> truthy_opt API_KEY = false)
  /\ (GeminiService.generatePhotoDetails JSON_parse API_KEY reply
      = Rejected (ThrowError Error GeminiService.msg_not_json)
      <-> truthy_opt API_KEY = true
          /\ ((exists e, reply = Rejected e /\ instanceof_SyntaxError e = true)
              \/ (exists text m,
                     reply = Fulfilled (Some text)
                     /\ JSON_parse (trim text) = inl m))).
Proof.
  unfold GeminiService.generatePhotoDetails.
  assert (Hcatch : forall e,
             GeminiService.catchClause e
             = ThrowError Error GeminiService.msg_not_json
             <-> instanceof_SyntaxError e = true).
  { intros e. unfold GeminiService.catchClause.
    destruct (instanceof_SyntaxError e); split; try reflexivity; discriminate. }
  assert (Hcatch' : forall e,
             GeminiService.catchClause e
             <> ThrowError Error GeminiService.msg_no_api_key).
  { intros e. unfold GeminiService.catchClause.
    destruct (instanceof_SyntaxError e); discriminate. }
  destruct (truthy_opt API_KEY); simpl; split.
  - split; [|discriminate].
    destruct (GeminiService.tryBlock JSON_parse reply) as [e|v];
      [|discriminate].
    intros H. injection H as H. now apply Hcatch' in H.
  - split.
    + intros H. split; [reflexivity|].
      destruct reply as [e|[text|]]; simpl in H.
      * left. exists e. split; [reflexivity|]. apply Hcatch. congruence.
      * right. exists text.
        destruct (JSON_parse (trim text)) as [m|v] eqn:Hp; [now exists m|].
        exfalso. destruct v; try discriminate H;
          destruct (GeminiService.validShape _); discriminate H.
      * discriminate H.
    + intros [_ [(e & -> & He) | (text & m & -> & Hp)]]; simpl.
      * f_equal. now apply Hcatch.
      * now rewrite Hp.
  - split; reflexivity.
  - split; [discriminate|]. intros [H _]. discriminate.
Qed.

(** ** The inline part of a file *)

Lemma split_without_comma (s : jsstring) :
  ~ In 44%N s -> GenerativePart.split s = [s].
Proof.
  induction s as [|c s IH]; simpl; intros H; [reflexivity|].
  destruct (c =? 44)%N eqn:E.
  - apply N.eqb_eq in E. exfalso. apply H. now left.
  - rewrite IH; [reflexivity|]. intros Hin. apply H. now right.
Qed.

Lemma split_after_header (header rest : jsstring) :
  ~ In 44%N header ->
  GenerativePart.split (header ++ 44%N :: rest)
  = header :: GenerativePart.split rest.
Proof.
  induction header as [|c header IH]; simpl; intros H; [reflexivity|].
  destruct (c =? 44)%N eqn:E.
  - apply N.eqb_eq in E. exfalso. apply H. now left.
  - rewrite IH; [reflexivity|]. intros Hin. apply H. now right.
Qed.

(** X3.  For a data URL whose header (the part before the first comma)
    is followed by a payload, [data] is the payload up to its next comma,
    so the whole payload when it has none (base64 text never has one),
    and [mimeType] is the file's type.  A reader result without any comma
    gives [data = undefined]. *)
Theorem generative_part_carries_the_payload
    (file : File) (header payload : jsstring) :
  ~ In 44%N header ->
  (~ In 44%N payload ->
   GenerativePart.fileToGenerativePart file (header ++ 44%N :: payload)
   = GenerativePart.mkInlineData (Some payload) (file_type file))
  /\ GenerativePart.data
       (GenerativePart.fileToGenerativePart file (header ++ 44%N :: payload))
     = hd_error (GenerativePart.split payload)
  /\ GenerativePart.data (GenerativePart.fileToGenerativePart file header)
     = None.
Proof.
  intros Hh. unfold GenerativePart.fileToGenerativePart. simpl.
  rewrite (split_after_header header payload Hh).
  rewrite (split_without_comma header Hh). simpl.
  split; [|split; [|reflexivity]].
  - intros Hp. now rewrite (split_without_comma payload Hp).
  - now destruct (GenerativePart.split payload).
Qed.

Lemma generative_part_witness :
  GenerativePart.fileToGenerativePart
    (mkFile (lit "beach.jpg") (lit "image/jpeg"))
    (lit "data:image/jpeg;base64,/9j/4AAQSkZJRg==")
  = GenerativePart.mkInlineData (Some (lit "/9j/4AAQSkZJRg=="))
                                (lit "image/jpeg").
Proof.
  apply (proj1 (generative_part_carries_the_payload
                  (mkFile (lit "beach.jpg") (lit "image/jpeg"))
                  (lit "data:image/jpeg;base64") (lit "/9j/4AAQSkZJRg==")
                  ltac:(vm_compute; intuition discriminate))).
  vm_compute; intuition discriminate.
Defined.

(** ** Settlements in any order *)

Lemma map_commute {A} (f g : A -> A) (l : list A) :
  (forall x, f (g x) = g (f x)) -> map f (map g l) = map g (map f l).
Proof.
  intros H. rewrite !map_map. apply map_ext. exact H.
Qed.

(** X4.  Two requests for different ids may settle in either order: the
    state of the component after both, registry and counter, is the same,
    whatever the two outcomes are. *)
Theorem settlements_commute
    (p1 p2 : Photo) (r1 r2 : Settled Details) (s : State) :
  id p1 <> id p2 ->
  processPhotoContent p1 r1 (processPhotoContent p2 r2 s)
  = processPhotoContent p2 r2 (processPhotoContent p1 r1 s).
Proof.
  intros Hne.
  assert (H12 : forall q, id q = id p1 -> (id q === id p2) = false).
  { intros q Hq. apply strict_eq_false_iff. congruence. }
  unfold processPhotoContent, setProcessingProgress, setPhotos.
  destruct r1 as [e1|d1], r2 as [e2|d2]; simpl; f_equal;
    unfold enrichmentFailed, enrichmentSucceeded;
    apply map_commute; intros q;
    destruct (id q === id p1) eqn:E1, (id q === id p2) eqn:E2; simpl;
    rewrite ?E1, ?E2; try reflexivity;
    apply strict_eq_true_iff in E1; rewrite (H12 q E1) in E2; discriminate.
Qed.

Lemma settlements_commute_witness :
  let s := app (after [FilesSelected [Sample.beach; Sample.forest]]) in
  let forestPhoto :=
    mkPhoto (lit "7f3a-02") (lit "blob:forest")
            (mkFile (lit "forest.png") (lit "image/png")) [] [] [] [] true None in
  processPhotoContent Sample.beachPhoto (Fulfilled Sample.dusk)
    (processPhotoContent forestPhoto (Rejected Sample.offline) s)
  = processPhotoContent forestPhoto (Rejected Sample.offline)
      (processPhotoContent Sample.beachPhoto (Fulfilled Sample.dusk) s).
Proof.
  apply settlements_commute. vm_compute. discriminate.
Defined.

(** ** Loading records and outstanding requests *)

Lemma In_removeNth {A} (n : nat) (l : list A) (x q : A) :
  nth_error l n = Some x -> In q l -> q <> x -> In q (removeNth n l).
Proof.
  revert l; induction n as [|n IH]; intros [|y l] Hn Hq Hne; simpl in *;
    try discriminate.
  - injection Hn as ->. destruct Hq as [->|Hq]; [contradiction | assumption].
  - destruct Hq as [->|Hq]; [now left|]. right. now apply (IH l).
Qed.

(** A map that keeps the id of every record and never turns loading on. *)
Lemma loading_through_map (f : Photo -> Photo) (l : list Photo) (p' : Photo) :
  (forall p, id (f p) = id p) ->
  (forall p, isLoading (f p) = true -> isLoading p = true) ->
  In p' (map f l) -> isLoading p' = true ->
  exists p, In p l /\ isLoading p = true /\ id p = id p'.
Proof.
  intros Hid Hl Hin Hp'. apply in_map_iff in Hin as (p & <- & Hp).
  exists p. split; [assumption|]. split; [now apply Hl | now rewrite Hid].
Qed.

Ltac loading_map H Hp' :=
  eapply loading_through_map in H;
  [ | let p := fresh "p" in intros p; simpl;
      match goal with |- context [if ?c then _ else _] => now destruct c end
    | let p := fresh "p" in intros p; simpl;
      match goal with |- context [if ?c then _ else _] =>
        destruct c; simpl; (discriminate || tauto) end
    | exact Hp' ].

Lemma step_keeps_requests (w : World) (e : Event) (w' : World) :
  isSettlement e = false -> step w e = Some w' ->
  forall q, In q (inFlight w) -> In q (inFlight w').
Proof.
  intros He Hstep q Hq. destruct e; simpl in *; try discriminate;
    repeat match type of Hstep with
           | context [match ?c with _ => _ end] => destruct c; try discriminate
           end;
    injection Hstep as <-; simpl; try assumption.
  apply in_or_app. now left.
Qed.

Lemma step_loadingAwaited (w : World) (e : Event) (w' : World) :
  loadingAwaited w -> step w e = Some w' -> loadingAwaited w'.
Proof.
  intros Hinv Hstep.
  assert (Hfrom : forall p',
             In p' (photos (app w')) -> isLoading p' = true ->
             isSettlement e = false ->
             (exists p, In p (photos (app w)) /\ isLoading p = true
                        /\ id p = id p') ->
             awaited w' p').
  { intros p' _ _ He (p & Hp & Hl & Hid).
    destruct (Hinv p Hp Hl) as (q & Hq & Hqid).
    exists q. split; [now apply (step_keeps_requests w e w') | congruence]. }
  intros p' Hin Hp'.
  destruct e; simpl in Hstep.
  - (* FilesSelected *)
    injection Hstep as <-. simpl in *.
    apply in_app_or in Hin as [Hin|Hin].
    + destruct (Hinv p' Hin Hp') as (q & Hq & Hqid).
      exists q. split; [apply in_or_app; now left | assumption].
    + exists p'. split; [apply in_or_app; now right | reflexivity].
  - (* EnrichmentSettled *)
    destruct (nth_error (inFlight w) n) as [newPhoto|] eqn:Hn; [|discriminate].
    injection Hstep as <-. simpl in *.
    assert (Hold : exists p, In p (photos (app w)) /\ isLoading p = true
                             /\ id p = id p' /\ id p <> id newPhoto).
    { destruct r as [err|d]; simpl in Hin;
        unfold enrichmentFailed, enrichmentSucceeded in Hin;
        apply in_map_iff in Hin as (p & <- & Hp);
        eq_cases (id p) (id newPhoto);
        try (simpl in Hp'; discriminate);
        exists p; repeat split; assumption. }
    destruct Hold as (p & Hp & Hl & Hid & Hne).
    destruct (Hinv p Hp Hl) as (q & Hq & Hqid).
    exists q. split; [|congruence].
    apply (In_removeNth n (inFlight w) newPhoto q Hn Hq). congruence.
  - (* ResetTimerFired *)
    destruct (resetTimer w); [|discriminate]. injection Hstep as <-.
    exact (Hinv p' Hin Hp').
  - (* ImportResolved *)
    destruct (importContract imported) eqn:Hc; [|discriminate].
    injection Hstep as <-. simpl in *. unfold handleImportSelected in Hin.
    destruct (0 <? length imported); [|exact (Hinv p' Hin Hp')].
    simpl in Hin. apply in_app_or in Hin as [Hin|Hin];
      [exact (Hinv p' Hin Hp')|].
    unfold importContract in Hc. rewrite forallb_forall in Hc.
    apply Hc in Hin. rewrite Hp' in Hin. discriminate.
  - (* CardCallback *)
    injection Hstep as Hw. apply (Hfrom p'); try assumption; try reflexivity.
    rewrite <- Hw in Hin. simpl in Hin.
    destruct c; simpl in Hin; try (exists p'; now repeat split); loading_map Hin Hp';
      exact Hin.
  - (* ConfirmDelete *)
    injection Hstep as Hw. apply (Hfrom p'); try assumption; try reflexivity.
    rewrite <- Hw in Hin. simpl in Hin. exists p'.
    repeat split; try assumption. unfold confirmDelete in Hin.
    destruct (photoToDelete (app w)) as [target|]; [|assumption].
    destruct (negb (truthy target)); [assumption|].
    simpl in Hin. now apply filter_In in Hin.
  - injection Hstep as <-. exact (Hinv p' Hin Hp').
  - injection Hstep as <-. exact (Hinv p' Hin Hp').
  - destruct (editingAlbum (app w)); [|discriminate]. injection Hstep as <-.
    exact (Hinv p' Hin Hp').
  - (* AlbumBlur *)
    injection Hstep as Hw. apply (Hfrom p'); try assumption; try reflexivity.
    rewrite <- Hw in Hin. simpl in Hin. unfold handleSaveAlbumName in Hin.
    destruct (editingAlbum (app w)) as [ea|]; [|exists p'; now repeat split].
    rewrite handleAlbumNameChange_photos in Hin.
    destruct (truthy (trim (newName ea))); [|exists p'; now repeat split].
    unfold renamed in Hin. loading_map Hin Hp'; exact Hin.
  - (* AlbumKeyDown *)
    injection Hstep as Hw. apply (Hfrom p'); try assumption; try reflexivity.
    rewrite <- Hw in Hin. simpl in Hin.
    assert (Hsave : In p' (photos (handleSaveAlbumName (app w))) ->
                    exists p, In p (photos (app w)) /\ isLoading p = true
                              /\ id p = id p').
    { intros H. unfold handleSaveAlbumName in H.
      destruct (editingAlbum (app w)) as [ea|]; [|exists p'; now repeat split].
      rewrite handleAlbumNameChange_photos in H.
      destruct (truthy (trim (newName ea))); [|exists p'; now repeat split].
      unfold renamed in H. loading_map H Hp'; exact H. }
    unfold handleAlbumKeyDown in Hin.
    destruct (key === lit "Enter"), (key === lit "Escape"); simpl in Hin;
      try (now apply Hsave); exists p'; now repeat split.
  - injection Hstep as <-. exact (Hinv p' Hin Hp').
  - injection Hstep as <-. simpl in Hin. destruct Hin.
  - injection Hstep as <-. exact (Hinv p' Hin Hp').
Qed.

Lemma reachable_loadingAwaited (w : World) : reachable w -> loadingAwaited w.
Proof.
  induction 1 as [|w e w' _ IH Hstep].
  - intros p [].
  - now apply (step_loadingAwaited w e).
Qed.

Lemma reachable_idle (w : World) :
  reachable w ->
  completed (processingProgress (app w)) = total (processingProgress (app w)) ->
  inFlight w = []
  /\ forall p, In p (photos (app w)) -> isLoading p = false.
Proof.
  intros Hw Heq. pose proof (reachable_loadingAwaited w Hw) as Hinv.
  destruct (reachable_accounted w Hw) as [Hsum _].
  assert (Hnil : inFlight w = []).
  { destruct (inFlight w); [reflexivity | simpl in Hsum; lia]. }
  split; [exact Hnil|]. intros p Hp.
  destruct (isLoading p) eqn:Hl; [|reflexivity].
  destruct (Hinv p Hp Hl) as (q & Hq & _). rewrite Hnil in Hq. destruct Hq.
Qed.

(** X5.  In every reachable state a record that is loading has an
    outstanding request for its id, so a spinner is never left without a
    request that will clear it; and once the counter shows
    [completed = total], no record of the registry is loading. *)
Theorem loading_records_have_a_request (w : World) :
  reachable w ->
  loadingAwaited w
  /\ (completed (processingProgress (app w))
      = total (processingProgress (app w)) ->
      inFlight w = []
      /\ forall p, In p (photos (app w)) -> isLoading p = false).
Proof.
  intros Hw. split; [now apply reachable_loadingAwaited|].
  now apply reachable_idle.
Qed.

Lemma loading_records_witness :
  let w := after [FilesSelected [Sample.beach; Sample.forest];
                  EnrichmentSettled 1 (Fulfilled Sample.picnic);
                  EnrichmentSettled 0 (Rejected Sample.offline)] in
  completed (processingProgress (app w)) = 2
  /\ inFlight w = []
  /\ forall p, In p (photos (app w)) -> isLoading p = false.
Proof.
  split; [reflexivity|].
  apply (proj2 (loading_records_have_a_request
                  (after [FilesSelected [Sample.beach; Sample.forest];
                          EnrichmentSettled 1 (Fulfilled Sample.picnic);
                          EnrichmentSettled 0 (Rejected Sample.offline)])
                  ltac:(now eapply reachable_after))).
  reflexivity.
Defined.

(** X6.  In a reachable state the reset timer can fire exactly when some
    batch was counted and no request is outstanding; when it fires the
    counter becomes {0,0}, the registry is untouched, no record is
    loading, and no further reset is pending. *)
Theorem reset_waits_for_every_request (w : World) :
  reachable w ->
  ((exists w', step w ResetTimerFired = Some w')
   <-> 0 < total (processingProgress (app w)) /\ inFlight w = [])
  /\ forall w',
      step w ResetTimerFired = Some w' ->
      processingProgress (app w') = mkProgress 0 0
      /\ photos (app w') = photos (app w)
      /\ (forall p, In p (photos (app w')) -> isLoading p = false)
      /\ resetTimer w' = false.
Proof.
  intros Hw. destruct (reachable_accounted w Hw) as [Hsum Htimer].
  split.
  - simpl. rewrite Htimer. unfold resetDue. split.
    + intros [w' H].
      destruct ((0 <? total (processingProgress (app w)))
                && (total (processingProgress (app w))
                    <=? completed (processingProgress (app w)))) eqn:E;
        [|discriminate].
      apply andb_true_iff in E as [E1 E2].
      apply Nat.ltb_lt in E1. apply Nat.leb_le in E2.
      split; [assumption|].
      destruct (inFlight w); [reflexivity | simpl in Hsum; lia].
    + intros [Hpos Hnil]. rewrite Hnil in Hsum. simpl in Hsum.
      apply Nat.ltb_lt in Hpos. rewrite Hpos. simpl.
      replace (total (processingProgress (app w))
               <=? completed (processingProgress (app w))) with true;
        [eexists; reflexivity|].
      symmetry. apply Nat.leb_le. lia.
  - intros w' H. simpl in H.
    destruct (resetTimer w) eqn:Ht; [|discriminate]. injection H as <-. simpl.
    symmetry in Htimer. apply resetDue_true in Htimer as [_ Hle].
    repeat split.
    intros p Hp. apply (proj2 (reachable_idle w Hw ltac:(lia))). exact Hp.
Qed.

Lemma reset_witness :
  let w := after [FilesSelected [Sample.beach; Sample.forest];
                  EnrichmentSettled 1 (Fulfilled Sample.picnic);
                  EnrichmentSettled 0 (Rejected Sample.offline)] in
  (exists w', step w ResetTimerFired = Some w')
  /\ step (after [FilesSelected [Sample.beach; Sample.forest];
                  EnrichmentSettled 1 (Fulfilled Sample.picnic)])
          ResetTimerFired = None.
Proof.
  split; [|reflexivity].
  apply (proj1 (reset_waits_for_every_request
                  (after [FilesSelected [Sample.beach; Sample.forest];
                          EnrichmentSettled 1 (Fulfilled Sample.picnic);
                          EnrichmentSettled 0 (Rejected Sample.offline)])
                  ltac:(now eapply reachable_after))).
  split; [vm_compute; lia | reflexivity].
Defined.



(** ** What identifies a record *)

Lemma identity_guarded_map (hit : Photo -> bool) (change : Photo -> Photo)
    (l : list Photo) :
  (forall p, identity (change p) = identity p) ->
  map identity (map (fun p => if hit p then change p else p) l)
  = map identity l.
Proof.
  intros H. rewrite map_map. apply map_ext. intros p.
  destruct (hit p); [apply H | reflexivity].
Qed.

Lemma identity_handleSaveAlbumName (s : State) :
  map identity (photos (handleSaveAlbumName s)) = map identity (photos s).
Proof.
  unfold handleSaveAlbumName. destruct (editingAlbum s) as [ea|]; [|reflexivity].
  unfold handleAlbumNameChange.
  destruct (negb (truthy (trim (newName ea)))); [reflexivity|]. simpl.
  now apply identity_guarded_map.
Qed.

Lemma identity_frame_of_step (w : World) (e : Event) (w' : World) :
  restructures e = false ->
  step w e = Some w' ->
  map identity (photos (app w')) = map identity (photos (app w)).
Proof.
  intros He Hstep. destruct e; simpl in He; try discriminate;
    simpl in Hstep.
  - destruct (nth_error (inFlight w) n) as [newPhoto|]; [|discriminate].
    injection Hstep as <-.
    destruct r; simpl; unfold enrichmentFailed, enrichmentSucceeded;
      now apply identity_guarded_map.
  - destruct (resetTimer w); [|discriminate]. now injection Hstep as <-.
  - injection Hstep as <-.
    destruct c; simpl; try reflexivity; now apply identity_guarded_map.
  - now injection Hstep as <-.
  - now injection Hstep as <-.
  - destruct (editingAlbum (app w)); [|discriminate]. now injection Hstep as <-.
  - injection Hstep as <-. apply identity_handleSaveAlbumName.
  - injection Hstep as <-. simpl. unfold handleAlbumKeyDown.
    destruct (key === lit "Enter"), (key === lit "Escape"); simpl;
      try reflexivity; apply identity_handleSaveAlbumName.
  - now injection Hstep as <-.
  - now injection Hstep as <-.
Qed.


(** X8.  Only an upload, an import, a confirmed deletion and a confirmed
    new photobook change which records the registry holds.  Every other
    event (a settlement, an edit of title, caption or tags, an album
    rename, the reset of the counter, opening or cancelling a dialog)
    leaves the number of records, their order, and the [id], [src] and
    [file] of each of them as they were. *)
Theorem records_keep_their_identity (w : World) (e : Event) (w' : World) :
  restructures e = false ->
  step w e = Some w' ->
  map identity (photos (app w')) = map identity (photos (app w))
  /\ length (photos (app w')) = length (photos (app w)).
Proof.
  intros He Hstep.
  pose proof (identity_frame_of_step w e w' He Hstep) as H.
  split; [exact H|].
  apply (f_equal (@length _)) in H. now rewrite !length_map in H.
Qed.

Lemma records_identity_witness :
  let w := after [FilesSelected [Sample.beach; Sample.forest]] in
  exists w',
    step w (EnrichmentSettled 0 (Fulfilled Sample.dusk)) = Some w'
    /\ map identity (photos (app w')) = map identity (photos (app w)).
Proof.
  eexists. split; [reflexivity|].
  exact (proj1 (records_keep_their_identity
                  (after [FilesSelected [Sample.beach; Sample.forest]])
                  (EnrichmentSettled 0 (Fulfilled Sample.dusk)) _
                  eq_refl eq_refl)).
Defined.

(** ** New photobook *)

Lemma settlement_on_empty_registry (q : Photo) (r : Settled Details)
    (s : State) :
  photos s = [] -> photos (processPhotoContent q r s) = [].
Proof. intros H. destruct r; simpl; now rewrite H. Qed.

Lemma settlements_keep_empty (es : list Event) (w0 w'' : World) :
  forallb isSettlement es = true ->
  photos (app w0) = [] ->
  run w0 es = Some w'' ->
  photos (app w'') = []
  /\ completed (processingProgress (app w''))
     = completed (processingProgress (app w0)) + length es.
Proof.
  revert w0; induction es as [|e es IH]; intros w0 Hall Hnil Hrun; simpl in *.
  - injection Hrun as <-. split; [assumption | lia].
  - apply andb_true_iff in Hall as [He Hes].
    destruct e; try discriminate He. simpl in Hrun.
    destruct (nth_error (inFlight w0) n) as [q|]; [|discriminate].
    apply IH in Hrun; [|assumption|simpl; now apply settlement_on_empty_registry].
    destruct Hrun as [Hempty Hcount]. split; [assumption|].
    rewrite Hcount. simpl. destruct r; simpl; lia.
Qed.

(** X9.  Confirming a new photobook empties the registry and closes the
    dialog, but it cancels nothing: the outstanding requests and the
    counter stay as they are, and when those requests settle afterwards
    the registry stays empty while [completed] still advances by one per
    settlement.  Cancelling the dialog leaves the registry as it is. *)
Theorem new_photobook_clears_the_registry (w : World) :
  (exists w',
      step w ConfirmNewPhotobook = Some w'
      /\ photos (app w') = []
      /\ isNewPhotobookModalOpen (app w') = false
      /\ inFlight w' = inFlight w
      /\ processingProgress (app w') = processingProgress (app w)
      /\ forall es w'',
          forallb isSettlement es = true ->
          run w' es = Some w'' ->
          photos (app w'') = []
          /\ completed (processingProgress (app w''))
             = completed (processingProgress (app w)) + length es)
  /\ (exists w',
         step w CancelNewPhotobook = Some w'
         /\ photos (app w') = photos (app w)
         /\ isNewPhotobookModalOpen (app w') = false).
Proof.
  split.
  - eexists. split; [reflexivity|]. simpl.
    do 4 (split; [reflexivity|]).
    intros es w'' Hall Hrun.
    now apply (settlements_keep_empty es _ w'' Hall) in Hrun.
  - eexists. split; [reflexivity|]. simpl. now split.
Qed.

(** ** Edits of title, caption and tags *)




Ltac edits_pointwise i j :=
  unfold handleTitleChange, handleCaptionChange, handleTagsChange, setPhotos;
  simpl; f_equal; rewrite !map_map; apply map_ext;
  let p := fresh "p" in
  let Ei := fresh "Ei" in
  let Ej := fresh "Ej" in
  intros p; destruct (id p === i) eqn:Ei, (id p === j) eqn:Ej; simpl;
  rewrite ?Ei, ?Ej; reflexivity.

(** X11.  Edits compose as writes to independent fields.  On one field of
    one id the last write wins; edits of different fields commute,
    whatever the ids; and edits of one field commute when the ids
    differ. *)
Theorem edits_are_last_write_wins
    (i j a b : jsstring) (ta tb : list jsstring) (s : State) :
  handleTitleChange i b (handleTitleChange i a s) = handleTitleChange i b s
  /\ handleCaptionChange i b (handleCaptionChange i a s)
     = handleCaptionChange i b s
  /\ handleTagsChange i tb (handleTagsChange i ta s) = handleTagsChange i tb s
  /\ handleTitleChange i a (handleCaptionChange j b s)
     = handleCaptionChange j b (handleTitleChange i a s)
  /\ handleTitleChange i a (handleTagsChange j tb s)
     = handleTagsChange j tb (handleTitleChange i a s)
  /\ handleCaptionChange i a (handleTagsChange j tb s)
     = handleTagsChange j tb (handleCaptionChange i a s)
  /\ (i <> j ->
      handleTitleChange i a (handleTitleChange j b s)
      = handleTitleChange j b (handleTitleChange i a s)
      /\ handleCaptionChange i a (handleCaptionChange j b s)
         = handleCaptionChange j b (handleCaptionChange i a s)
      /\ handleTagsChange i ta (handleTagsChange j tb s)
         = handleTagsChange j tb (handleTagsChange i ta s)).
Proof.
  do 6 (split; [edits_pointwise i j|]).
  intros Hne.
  assert (Hx : forall q, (id q === i) = true -> (id q === j) = true -> False).
  { intros q Hi Hj. apply strict_eq_true_iff in Hi, Hj. congruence. }
  repeat split;
    unfold handleTitleChange, handleCaptionChange, handleTagsChange, setPhotos;
    simpl; f_equal; rewrite !map_map; apply map_ext; intros p;
    destruct (id p === i) eqn:Ei, (id p === j) eqn:Ej; simpl;
    rewrite ?Ei, ?Ej; try reflexivity; exfalso; now apply (Hx p).
Qed.

Lemma edits_witness :
  let s := app (after [FilesSelected [Sample.beach; Sample.forest]]) in
  handleTitleChange (lit "7f3a-01") (lit "Bay")
    (handleTitleChange (lit "7f3a-02") (lit "Oak") s)
  = handleTitleChange (lit "7f3a-02") (lit "Oak")
      (handleTitleChange (lit "7f3a-01") (lit "Bay") s).
Proof.
  apply (proj2 (proj2 (proj2 (proj2 (proj2 (proj2
           (edits_are_last_write_wins
              (lit "7f3a-01") (lit "7f3a-02") (lit "Bay") (lit "Oak") [] []
              (app (after [FilesSelected [Sample.beach; Sample.forest]]))))))))).
  vm_compute. discriminate.
Defined.

(** ** The deletion dialog *)

Lemma length_filter_split {A} (f : A -> bool) (l : list A) :
  length (filter f l) + length (filter (fun x => negb (f x)) l) = length l.
Proof.
  induction l as [|x l IH]; simpl; [reflexivity|].
  destruct (f x); simpl; lia.
Qed.

(** X12.  Asking to delete a record and cancelling leaves the registry as
    it is with no deletion pending.  Asking and confirming, for an id that
    is not the empty string, removes exactly the records of that id, keeps
    the others in their order, and leaves no deletion pending; confirming
    again then changes nothing.  With nothing pending, or for the empty
    string as id, confirming changes nothing: the guard of line 155 reads
    the empty id as "no deletion asked for". *)
Theorem deletion_removes_only_the_chosen_record
    (photoId : jsstring) (s : State) :
  (photos (cancelDelete (handleDeletePhoto photoId s)) = photos s
   /\ photoToDelete (cancelDelete (handleDeletePhoto photoId s)) = None)
  /\ (photoId <> [] ->
      let s' := confirmDelete (handleDeletePhoto photoId s) in
      photos s' = filter (fun p => negb (id p === photoId)) (photos s)
      /\ photoToDelete s' = None
      /\ length (photos s')
         + length (filter (fun p => id p === photoId) (photos s))
         = length (photos s)
      /\ confirmDelete s' = s')
  /\ (photoToDelete s = None -> confirmDelete s = s)
  /\ confirmDelete (handleDeletePhoto [] s) = handleDeletePhoto [] s.
Proof.
  split; [now split|]. split; [|split].
  - intros Hne s'. subst s'. unfold confirmDelete. simpl.
    destruct (truthy photoId) eqn:E;
      [|apply truthy_false_iff in E; contradiction].
    simpl. repeat split.
    rewrite Nat.add_comm. apply length_filter_split.
  - intros H. unfold confirmDelete. now rewrite H.
  - reflexivity.
Qed.

Lemma deletion_witness :
  let s := app (after [FilesSelected [Sample.beach; Sample.forest]]) in
  let s' := confirmDelete (handleDeletePhoto (lit "7f3a-01") s) in
  map id (photos s') = [lit "7f3a-02"] /\ photoToDelete s' = None.
Proof.
  destruct (proj1 (proj2 (deletion_removes_only_the_chosen_record
                            (lit "7f3a-01")
                            (app (after [FilesSelected
                                           [Sample.beach; Sample.forest]]))))
              ltac:(discriminate)) as (H1 & H2 & _).
  split; [rewrite H1; reflexivity | exact H2].
Defined.

(** ** The album title editor *)

Lemma last_of_nonempty {A} (l : list A) (v x y : A) :
  last (v :: l) x = last (v :: l) y.
Proof.
  revert v; induction l as [|u l IH]; intros v; [reflexivity|].
  change (last (u :: l) x = last (u :: l) y). apply IH.
Qed.

Lemma typing_keeps_the_registry (vs : list jsstring) (w : World)
    (o x : jsstring) :
  editingAlbum (app w) = Some (mkEditingAlbum o x) ->
  exists w',
    run w (map AlbumInput vs) = Some w'
    /\ app w' = setEditingAlbum (Some (mkEditingAlbum o (last vs x))) (app w)
    /\ inFlight w' = inFlight w /\ resetTimer w' = resetTimer w.
Proof.
  revert w x; induction vs as [|v vs IH]; intros w x He.
  - exists w. simpl. repeat split. unfold setEditingAlbum. rewrite <- He.
    now destruct (app w).
  - simpl. rewrite He. simpl.
    set (w1 := mkWorld (setEditingAlbum (Some (mkEditingAlbum o v)) (app w))
                       (inFlight w) (resetTimer w)).
    destruct (IH w1 v eq_refl) as (w' & Hrun & Happ & Hfl & Ht).
    exists w'. split; [exact Hrun|]. split; [|split; assumption].
    rewrite Happ. destruct vs as [|u vs]; [reflexivity|].
    change (last (v :: u :: vs) x) with (last (u :: vs) x).
    now rewrite (last_of_nonempty vs u x v).
Qed.

Lemma run_app (w : World) (es es' : list Event) :
  run w (es ++ es')
  = match run w es with Some w1 => run w1 es' | None => None end.
Proof.
  revert w; induction es as [|e es IH]; intros w; simpl; [reflexivity|].
  destruct (step w e); [apply IH | reflexivity].
Qed.

Lemma rename_ignores_the_editor (o n : jsstring) (ea : option EditingAlbum)
    (s : State) :
  handleAlbumNameChange o n (setEditingAlbum ea s) = handleAlbumNameChange o n s.
Proof.
  unfold handleAlbumNameChange. now destruct (negb (truthy (trim n))).
Qed.

(** X13.  A click on an album title opens the editor on that name; what
    is typed afterwards is kept in the editor only.  Escape closes the
    editor and the registry is as it was before the click, whatever was
    typed.  Enter, and equally the loss of focus, renames the clicked
    album to the last value typed (to its own name when nothing was
    typed) and closes the editor. *)
Theorem album_editor_commits_on_enter_or_blur
    (w : World) (clicked : jsstring) (typed : list jsstring) :
  (exists w',
      run w (AlbumClicked clicked :: map AlbumInput typed
             ++ [AlbumKeyDown (lit "Escape")]) = Some w'
      /\ photos (app w') = photos (app w)
      /\ editingAlbum (app w') = None)
  /\ (exists w',
         run w (AlbumClicked clicked :: map AlbumInput typed
                ++ [AlbumKeyDown (lit "Enter")]) = Some w'
         /\ app w' = handleAlbumNameChange clicked (last typed clicked) (app w))
  /\ (exists w',
         run w (AlbumClicked clicked :: map AlbumInput typed ++ [AlbumBlur])
         = Some w'
         /\ app w' = handleAlbumNameChange clicked (last typed clicked) (app w)).
Proof.
  set (w0 := mkWorld (setEditingAlbum
                        (Some (mkEditingAlbum clicked clicked)) (app w))
                     (inFlight w) (resetTimer w)).
  destruct (typing_keeps_the_registry typed w0 clicked clicked eq_refl)
    as (w1 & Hrun & Happ & _ & _).
  assert (Hstart : forall final,
             run w (AlbumClicked clicked :: map AlbumInput typed ++ [final])
             = step w1 final).
  { intros final. simpl. fold w0. rewrite run_app, Hrun. simpl.
    now destruct (step w1 final). }
  split; [|split]; rewrite Hstart; simpl; eexists; (split; [reflexivity|]);
    simpl; rewrite Happ.
  - now split.
  - unfold handleAlbumKeyDown, handleSaveAlbumName. simpl.
    rewrite !rename_ignores_the_editor.
    unfold handleAlbumNameChange.
    now destruct (negb (truthy (trim (last typed clicked)))).
  - unfold handleSaveAlbumName. simpl. now rewrite !rename_ignores_the_editor.
Qed.

Lemma rename_to_itself (s : State) (name : jsstring) :
  trim name = name ->
  photos (handleAlbumNameChange name name s) = photos s.
Proof.
  intros Ht. rewrite handleAlbumNameChange_photos, Ht.
  destruct (truthy name); [|reflexivity].
  rewrite <- (map_id (photos s)) at 2. apply map_ext. intros p.
  unfold renamed. eq_cases (album p) name; [|reflexivity].
  rewrite <- E. now destruct p.
Qed.

(** X14.  Clicking an album title and leaving the field without typing
    changes nothing in the registry and closes the editor, provided the
    displayed name has no white space at either end (a name with such
    white space is rewritten to its trimmed form). *)
Theorem untouched_album_editor_changes_nothing
    (w : World) (name : jsstring) :
  trim name = name ->
  exists w',
    run w [AlbumClicked name; AlbumBlur] = Some w'
    /\ photos (app w') = photos (app w)
    /\ editingAlbum (app w') = None.
Proof.
  intros Ht. eexists. split; [reflexivity|]. simpl.
  unfold handleSaveAlbumName. simpl. rewrite rename_ignores_the_editor.
  split; [now apply rename_to_itself|].
  unfold handleAlbumNameChange. now destruct (negb (truthy (trim name))).
Qed.

Lemma untouched_album_editor_witness :
  let w := after [FilesSelected [Sample.beach; Sample.forest];
                  EnrichmentSettled 0 (Fulfilled Sample.dusk)] in
  exists w',
    run w [AlbumClicked (lit "Nature"); AlbumBlur] = Some w'
    /\ photos (app w') = photos (app w)
    /\ editingAlbum (app w') = None.
Proof.
  exact (untouched_album_editor_changes_nothing
           (after [FilesSelected [Sample.beach; Sample.forest];
                   EnrichmentSettled 0 (Fulfilled Sample.dusk)])
           (lit "Nature") eq_refl).
Defined.

(** X15.  A rename can be undone by the opposite rename exactly when it
    merged nothing: if no record had the new name as its album, renaming
    [a] to [b] and then [b] to [a] gives back the registry (both names
    without white space at the ends and not empty). *)
Theorem rename_back_restores_the_registry (a b : jsstring) (s : State) :
  trim a = a -> a <> [] -> trim b = b -> b <> [] ->
  (forall p, In p (photos s) -> album p <> b) ->
  photos (handleAlbumNameChange b a (handleAlbumNameChange a b s)) = photos s.
Proof.
  intros Hta Ha Htb Hb Hfree.
  rewrite !handleAlbumNameChange_photos, Hta, Htb.
  destruct (truthy a) eqn:Ea; [|apply truthy_false_iff in Ea; contradiction].
  destruct (truthy b) eqn:Eb; [|apply truthy_false_iff in Eb; contradiction].
  rewrite map_map. rewrite <- (map_id (photos s)) at 2.
  apply map_ext_in. intros p Hp. unfold renamed.
  eq_cases (album p) a; simpl.
  - rewrite strict_eq_refl. rewrite <- E. now destruct p.
  - apply Hfree in Hp. apply strict_eq_false_iff in Hp. now rewrite Hp.
Qed.

Lemma rename_back_witness :
  let s := app (after [FilesSelected [Sample.beach; Sample.forest];
                       EnrichmentSettled 0 (Fulfilled Sample.dusk);
                       EnrichmentSettled 0 (Fulfilled Sample.picnic)]) in
  photos (handleAlbumNameChange (lit "Trips") (lit "Nature")
            (handleAlbumNameChange (lit "Nature") (lit "Trips") s))
  = photos s.
Proof.
  apply rename_back_restores_the_registry;
    try reflexivity; try discriminate.
  intros p [<-|[<-|[]]]; vm_compute; discriminate.
Defined.

(** ** The album projection, continued *)

Lemma albumName_not_empty (p : Photo) : albumName p <> [].
Proof.
  unfold albumName. destruct (album p) eqn:E; simpl.
  - destruct (isLoading p); discriminate.
  - discriminate.
Qed.

Lemma inherited_albumName (p : Photo) :
  inherited (albumName p) = true <-> In (album p) objectPrototypeKeys.
Proof.
  unfold inherited. rewrite <- includes_true_iff.
  unfold albumName. destruct (album p) eqn:E; simpl truthy; cbv iota.
  - destruct (isLoading p); split; intros H; vm_compute in H; discriminate.
  - reflexivity.
Qed.

(** X16.  When no record is displayed under a name that [Object.prototype]
    answers for, the projection returns.  Its groups are then exactly the
    non-empty classes of the registry under the displayed name (the
    stored album, or ['...'] / ['Uncategorized'] for a record without
    one), each holding its records in registry order; the group names are
    distinct and none is empty; every record is in the group of its
    displayed name; and, for a consistent [localeCompare], the groups are
    sorted by it. *)
Theorem album_groups_are_the_display_classes
    (localeCompare : jsstring -> jsstring -> Z) (registry : list Photo) :
  (forall p, In p registry -> inherited (albumName p) = false) ->
  exists groups,
    albums localeCompare registry = inr groups
    /\ NoDup (map fst groups)
    /\ (forall k arr,
           In (k, arr) groups <-> arr = shown k registry /\ arr <> [])
    /\ (forall p,
           In p registry ->
           In (albumName p, shown (albumName p) registry) groups
           /\ In p (shown (albumName p) registry))
    /\ (forall k, In k (map fst groups) -> k <> [])
    /\ ((forall a b, (0 < localeCompare a b)%Z -> (localeCompare b a <= 0)%Z) ->
        Sorted (inOrder localeCompare) groups).
Proof.
  intros Hsafe.
  destruct (albums localeCompare registry) as [e|groups] eqn:E.
  - exfalso. unfold albums in E.
    destruct (forEach registry []) as [e0|g] eqn:Hg; [|discriminate].
    assert (Hex : exists e1, forEach registry [] = inl e1) by now exists e0.
    apply forEach_throws_iff in Hex as (p & Hp & Hi); [|intros k []].
    rewrite (Hsafe p Hp) in Hi. discriminate.
  - exists groups. split; [reflexivity|].
    destruct (albums_groups_by_name localeCompare registry groups E)
      as (Hnd & Hcls & Hsorted).
    split; [exact Hnd|]. split; [exact Hcls|].
    assert (Hmem : forall p, In p registry ->
                             In p (shown (albumName p) registry)).
    { intros p Hp. apply filter_In. split; [assumption | apply strict_eq_refl]. }
    split; [|split; [|exact Hsorted]].
    + intros p Hp. split; [|now apply Hmem].
      apply Hcls. split; [reflexivity|].
      intros Hnil. apply Hmem in Hp. rewrite Hnil in Hp. destruct Hp.
    + intros k Hk. apply in_map_iff in Hk as ([k' arr] & <- & Hin). simpl.
      apply Hcls in Hin as [-> Hne].
      destruct (shown k' registry) as [|p l] eqn:Hs; [congruence|].
      assert (Hp : In p (shown k' registry)) by (rewrite Hs; now left).
      apply filter_In in Hp as [_ Hp]. apply strict_eq_true_iff in Hp.
      rewrite <- Hp. apply albumName_not_empty.
Qed.

Lemma album_groups_witness :
  let registry :=
    photos (app (after [FilesSelected [Sample.beach; Sample.forest;
                                       Sample.harbour];
                        EnrichmentSettled 0 (Fulfilled Sample.dusk);
                        EnrichmentSettled 0 (Fulfilled Sample.picnic)])) in
  exists groups,
    albums Sample.byCodeUnit registry = inr groups
    /\ NoDup (map fst groups)
    /\ Sorted (inOrder Sample.byCodeUnit) groups.
Proof.
  destruct (album_groups_are_the_display_classes
              Sample.byCodeUnit
              (photos (app (after [FilesSelected [Sample.beach; Sample.forest;
                                                  Sample.harbour];
                                   EnrichmentSettled 0 (Fulfilled Sample.dusk);
                                   EnrichmentSettled 0 (Fulfilled Sample.picnic)])))
              ltac:(intros p [<-|[<-|[<-|[]]]]; reflexivity))
    as (groups & H1 & H2 & _ & _ & _ & H3).
  exists groups. split; [exact H1|]. split; [exact H2|].
  exact (H3 byCodeUnit_consistent).
Defined.

(** X17.  The projection throws exactly when the stored album of some
    record is one of the twelve names every object inherits
    ([constructor], [toString], [valueOf], [hasOwnProperty],
    [isPrototypeOf], [propertyIsEnumerable], [toLocaleString],
    [__proto__] and the four [__define/lookup Getter/Setter__]); the
    placeholders never cause it, and what is thrown is always the
    TypeError of line 218. *)
Theorem albums_throws_exactly_on_inherited_albums
    (localeCompare : jsstring -> jsstring -> Z) (registry : list Photo) :
  ((exists e, albums localeCompare registry = inl e)
   <-> exists p, In p registry /\ In (album p) objectPrototypeKeys)
  /\ forall e,
      albums localeCompare registry = inl e ->
      e = ThrowError TypeError msg_push_not_a_function.
Proof.
  assert (Herr : forall e, albums localeCompare registry = inl e ->
                           e = ThrowError TypeError msg_push_not_a_function).
  { intros e H. unfold albums in H.
    destruct (forEach registry []) as [e0|g] eqn:Hg; [|discriminate].
    injection H as <-. now apply (forEach_error registry []). }
  split; [|exact Herr]. split.
  - intros [e H]. rewrite (Herr e H) in H.
    apply albums_throws_iff in H as (p & Hp & Hi).
    exists p. split; [assumption | now apply inherited_albumName].
  - intros (p & Hp & Hi). eexists. apply albums_throws_iff.
    exists p. split; [assumption | now apply inherited_albumName].
Qed.

Lemma push_concat (g : Grouped) (k : jsstring) (ph : Photo)
    (arr : list Photo) :
  own g k = Some arr ->
  Permutation (concat (map snd (push g k ph))) (ph :: concat (map snd g)).
Proof.
  induction g as [|[k0 a0] g IH]; simpl; intros H; [discriminate|].
  eq_cases k0 k; simpl.
  - rewrite <- app_assoc. simpl. symmetry. apply Permutation_middle.
  - rewrite (IH H). symmetry. apply Permutation_middle.
Qed.

Lemma groupPhoto_concat (g g' : Grouped) (ph : Photo) :
  groupPhoto g ph = inr g' ->
  Permutation (concat (map snd g')) (ph :: concat (map snd g)).
Proof.
  unfold groupPhoto. destruct (own g (albumName ph)) as [arr|] eqn:Hown.
  - intros H. injection H as <-. now apply (push_concat g _ ph arr).
  - destruct (inherited (albumName ph)); [discriminate|].
    intros H. injection H as <-.
    rewrite (push_concat (g ++ [(albumName ph, [])]) _ ph []).
    + rewrite map_app, concat_app. simpl. now rewrite app_nil_r.
    + rewrite (own_app_fresh _ _ _ _ Hown). now rewrite strict_eq_refl.
Qed.

Lemma forEach_concat (ps : list Photo) (g g' : Grouped) :
  forEach ps g = inr g' ->
  Permutation (concat (map snd g')) (concat (map snd g) ++ ps).
Proof.
  revert g; induction ps as [|ph ps IH]; simpl; intros g H.
  - injection H as <-. now rewrite app_nil_r.
  - destruct (groupPhoto g ph) as [e|g1] eqn:Hg; [discriminate|].
    rewrite (IH g1 H), (groupPhoto_concat g g1 ph Hg). simpl.
    apply Permutation_middle.
Qed.

Lemma concat_perm {A} (l l' : list (list A)) :
  Permutation l l' -> Permutation (concat l) (concat l').
Proof.
  induction 1; simpl.
  - reflexivity.
  - now apply Permutation_app_head.
  - rewrite !app_assoc. apply Permutation_app_tail, Permutation_app_comm.
  - etransitivity; eassumption.
Qed.

(** X18.  The projection neither loses nor repeats a record: whenever it
    returns, the groups laid end to end are a rearrangement of the
    registry, so the cards on the page are as many as the records. *)
Theorem album_groups_partition_the_registry
    (localeCompare : jsstring -> jsstring -> Z)
    (registry : list Photo) (groups : Grouped) :
  albums localeCompare registry = inr groups ->
  Permutation (concat (map snd groups)) registry
  /\ length (concat (map snd groups)) = length registry.
Proof.
  unfold albums. destruct (forEach registry []) as [e|g] eqn:Hg; [discriminate|].
  intros H. injection H as <-.
  assert (Hperm : Permutation
                    (concat (map snd (sortEntries localeCompare
                                        (Object_entries g))))
                    registry).
  { rewrite (concat_perm _ (map snd g)).
    - now rewrite (forEach_concat registry [] g Hg).
    - apply Permutation_map. rewrite sortEntries_perm.
      apply Object_entries_perm. }
  split; [exact Hperm | now apply Permutation_length].
Qed.

Lemma album_groups_partition_witness :
  exists groups,
    albums Sample.byCodeUnit
      (photos (app (after [FilesSelected [Sample.beach; Sample.forest];
                           EnrichmentSettled 0 (Fulfilled Sample.dusk)])))
    = inr groups
    /\ length (concat (map snd groups)) = 2.
Proof.
  eexists. split; [vm_compute; reflexivity|].
  exact (proj2 (album_groups_partition_the_registry
                  Sample.byCodeUnit
                  (photos (app (after [FilesSelected
                                         [Sample.beach; Sample.forest];
                                       EnrichmentSettled 0
                                         (Fulfilled Sample.dusk)])))
                  _ eq_refl)).
Defined.

(** ** The card, continued *)






(** X20.  Keys the card does not act on.  A key other than Enter and
    Escape changes nothing and calls no prop, in the title input, in the
    caption area and in the tag input; Enter without Ctrl or Cmd is left
    to the caption area (a new line) and neither saves nor cancels; and
    Escape in the tag input does nothing. *)
Theorem other_keys_do_nothing
    (photo : Photo) (r : PhotoCard.CardState) (event : PhotoCard.KeyboardEvent) :
  (PhotoCard.key event <> lit "Enter" -> PhotoCard.key event <> lit "Escape" ->
   PhotoCard.fire r (PhotoCard.handleTitleKeyDown photo r event) = (r, [])
   /\ PhotoCard.fire r (PhotoCard.handleCaptionKeyDown photo r event) = (r, [])
   /\ PhotoCard.fire r (PhotoCard.handleTagInputKeyDown photo r event) = (r, []))
  /\ (PhotoCard.key event = lit "Enter" ->
      PhotoCard.metaKey event = false -> PhotoCard.ctrlKey event = false ->
      PhotoCard.fire r (PhotoCard.handleCaptionKeyDown photo r event) = (r, []))
  /\ (PhotoCard.key event = lit "Escape" ->
      PhotoCard.fire r (PhotoCard.handleTagInputKeyDown photo r event) = (r, [])).
Proof.
  unfold PhotoCard.fire, PhotoCard.handleTitleKeyDown,
    PhotoCard.handleCaptionKeyDown, PhotoCard.handleTagInputKeyDown.
  split; [|split].
  - intros H1 H2. apply strict_eq_false_iff in H1, H2. now rewrite H1, H2.
  - intros -> -> ->. reflexivity.
  - intros ->. reflexivity.
Qed.

Lemma other_keys_witness :
  let r := PhotoCard.mkCardState true (lit "Low tide") false (lit "Dusk") [] in
  PhotoCard.fire r
    (PhotoCard.handleCaptionKeyDown Sample.beachPhoto r
       (PhotoCard.mkKey (lit "Enter") false false))
  = (r, []).
Proof.
  exact (proj1 (proj2
           (other_keys_do_nothing
              Sample.beachPhoto
              (PhotoCard.mkCardState true (lit "Low tide") false (lit "Dusk") [])
              (PhotoCard.mkKey (lit "Enter") false false)))
           eq_refl eq_refl eq_refl).
Defined.

Lemma handle_keeps_one_editor (photo : Photo) (r : PhotoCard.CardState)
    (e : CardView.CardEvent) :
  PhotoCard.isEditingCaption r && PhotoCard.isEditingTitle r = false ->
  PhotoCard.isEditingCaption (fst (CardView.handle photo r e))
  && PhotoCard.isEditingTitle (fst (CardView.handle photo r e)) = false.
Proof.
  intros H. destruct r as [ec c et t ti]. simpl in H.
  destruct ec, et; try discriminate H;
  destruct e; unfold CardView.handle, PhotoCard.fire; simpl;
    unfold CardView.clickTitle, CardView.clickCaption,
      CardView.effectCaption, CardView.effectTitle,
      PhotoCard.handleTitleKeyDown, PhotoCard.handleCaptionKeyDown,
      PhotoCard.handleTagInputKeyDown, PhotoCard.handleAddTag,
      PhotoCard.handleSaveTitle, PhotoCard.handleSaveCaption; simpl;
    repeat match goal with
           | |- context [if ?c then _ else _] => destruct c; simpl
           end;
    try assumption; try reflexivity; try (now rewrite andb_false_r);
    try discriminate.
Qed.

(** X21.  A card never has its title editor and its caption editor open
    together: from the moment it is mounted, after any sequence of clicks,
    key presses, input changes, saves, cancels, tag actions and effect
    runs, for whatever records it is rendered, at most one of
    [isEditingTitle] and [isEditingCaption] is true. *)
Theorem card_has_one_editor_at_most
    (photo : Photo) (es : list (Photo * CardView.CardEvent)) :
  let r := CardView.play (CardView.mount photo) es in
  PhotoCard.isEditingCaption r && PhotoCard.isEditingTitle r = false.
Proof.
  simpl.
  assert (H : PhotoCard.isEditingCaption (CardView.mount photo)
              && PhotoCard.isEditingTitle (CardView.mount photo) = false)
    by reflexivity.
  revert H. generalize (CardView.mount photo).
  induction es as [|[ph e] es IH]; intros r H; simpl; [exact H|].
  apply IH. now apply handle_keeps_one_editor.
Qed.

(** X22.  Leaving an editor brings the scratch value back in line with
    the registry.  After a save of the caption, the record's caption is
    the trimmed scratch text, and the effect that runs because
    [isEditingCaption] changed shows that same text; after a save of the
    title, the record's title is the trimmed scratch text when that is
    not empty and the former title otherwise, and the effect shows the
    record's title (an emptied title snaps back); after a cancel the
    scratch value is the committed one. *)
Theorem leaving_an_editor_resynchronises
    (photo : Photo) (r : PhotoCard.CardState) (s : State) (i : nat) :
  nth_error (photos s) i = Some photo ->
  let c := trim (PhotoCard.editedCaption r) in
  let t := trim (PhotoCard.editedTitle r) in
  let savedCaption := PhotoCard.fire r (PhotoCard.handleSaveCaption photo r) in
  let savedTitle := PhotoCard.fire r (PhotoCard.handleSaveTitle photo r) in
  let cancelledCaption := PhotoCard.fire r (PhotoCard.handleCancelCaption photo) in
  let cancelledTitle := PhotoCard.fire r (PhotoCard.handleCancelTitle photo) in
  (exists photo1,
      nth_error (photos (deliverAll (snd savedCaption) s)) i = Some photo1
      /\ caption photo1 = c
      /\ PhotoCard.editedCaption
           (fst (PhotoCard.fire (fst savedCaption)
                   (CardView.effectCaption photo1 (fst savedCaption))))
         = c
      /\ PhotoCard.isEditingCaption (fst savedCaption) = false)
  /\ (exists photo1,
         nth_error (photos (deliverAll (snd savedTitle) s)) i = Some photo1
         /\ title photo1 = (if truthy t then t else title photo)
         /\ PhotoCard.editedTitle
              (fst (PhotoCard.fire (fst savedTitle)
                      (CardView.effectTitle photo1 (fst savedTitle))))
            = title photo1
         /\ PhotoCard.isEditingTitle (fst savedTitle) = false)
  /\ PhotoCard.editedCaption
       (fst (PhotoCard.fire (fst cancelledCaption)
               (CardView.effectCaption photo (fst cancelledCaption))))
     = caption photo
  /\ PhotoCard.editedTitle
       (fst (PhotoCard.fire (fst cancelledTitle)
               (CardView.effectTitle photo (fst cancelledTitle))))
     = title photo.
Proof.
  intros Hi c t savedCaption savedTitle cancelledCaption cancelledTitle.
  subst savedCaption savedTitle cancelledCaption cancelledTitle.
  rewrite handleSaveCaption_calls, handleSaveTitle_calls,
    handleCancelCaption_calls, handleCancelTitle_calls.
  fold c t. simpl fst. simpl snd.
  split; [|split; [|split; reflexivity]].
  - eq_cases c (caption photo).
    + exists photo. simpl. split; [assumption|]. now repeat split.
    + simpl. rewrite nth_error_map, Hi. simpl. rewrite strict_eq_refl.
      eexists. split; [reflexivity|]. now repeat split.
  - destruct (truthy t) eqn:Et; simpl.
    + eq_cases t (title photo); simpl.
      * exists photo. split; [assumption|]. now repeat split.
      * rewrite nth_error_map, Hi. simpl. rewrite strict_eq_refl.
        eexists. split; [reflexivity|]. now repeat split.
    + exists photo. split; [assumption|]. now repeat split.
Qed.

Lemma leaving_an_editor_witness :
  let s := app (after [FilesSelected [Sample.beach];
                       EnrichmentSettled 0 (Fulfilled Sample.dusk)]) in
  let r := PhotoCard.mkCardState false (lit "The sun goes down over the bay.")
                                 true (lit "   ") [] in
  exists photo photo1,
    nth_error (photos s) 0 = Some photo
    /\ nth_error
         (photos (deliverAll
                    (snd (PhotoCard.fire r (PhotoCard.handleSaveTitle photo r)))
                    s)) 0 = Some photo1
    /\ title photo1 = lit "Dusk"
    /\ PhotoCard.editedTitle
         (fst (PhotoCard.fire
                 (fst (PhotoCard.fire r (PhotoCard.handleSaveTitle photo r)))
                 (CardView.effectTitle photo1
                    (fst (PhotoCard.fire r
                            (PhotoCard.handleSaveTitle photo r))))))
       = title photo1.
Proof.
  eexists.
  destruct (proj1 (proj2
              (leaving_an_editor_resynchronises
                 (mkPhoto (lit "7f3a-01") (lit "blob:beach")
                          (mkFile (lit "beach.jpg") (lit "image/jpeg"))
                          (lit "Dusk") (lit "The sun goes down over the bay.")
                          (lit "Nature")
                          [lit "sunset"; lit "beach"; lit "sea"] false None)
                 (PhotoCard.mkCardState
                    false (lit "The sun goes down over the bay.")
                    true (lit "   ") [])
                 (app (after [FilesSelected [Sample.beach];
                              EnrichmentSettled 0 (Fulfilled Sample.dusk)]))
                 0 eq_refl))) as (photo1 & H1 & H2 & H3 & _).
  exists photo1. split; [reflexivity|]. split; [exact H1|].
  split; [exact H2 | exact H3].
Defined.

(** ** File inputs *)

(** X23.  The upload prompt never starts an empty batch: it calls
    [onFilesSelected] only with a list that has a file in it.  The input
    in the header does pass an empty list on, and then nothing happens:
    in a reachable state the component's state, the outstanding requests
    and the reset timer are all as before, and no request is started. *)
Theorem empty_selection_changes_nothing (w : World) :
  reachable w ->
  step w (FilesSelected []) = Some w
  /\ UploadPrompt.handleFileInputChange (Some []) (app w) = (app w, [])
  /\ UploadPrompt.handleFileInputChange None (app w) = (app w, [])
  /\ UploadPrompt.handleFileChange (Some []) = []
  /\ UploadPrompt.handleFileChange None = []
  /\ forall files fs,
      In (UploadPrompt.onFilesSelected fs) (UploadPrompt.handleFileChange files) ->
      files = Some fs /\ 0 < length fs.
Proof.
  intros Hw. destruct (reachable_accounted w Hw) as [_ Htimer].
  assert (Hsame : handleFilesSelected [] (app w) = (app w, [])).
  { unfold handleFilesSelected, setPhotos, setProcessingProgress. simpl.
    rewrite app_nil_r, Nat.add_0_r.
    destruct (app w) as [ps pd m ea [c t]]. reflexivity. }
  split; [|split; [exact Hsame|split; [reflexivity|split; [reflexivity|split;
    [reflexivity|]]]]].
  - unfold step. rewrite Hsame, app_nil_r, <- Htimer. now destruct w.
  - intros files fs H. destruct files as [l|]; simpl in H; [|destruct H].
    destruct (0 <? length l) eqn:E; [|destruct H].
    destruct H as [H|[]]. injection H as ->.
    split; [reflexivity | now apply Nat.ltb_lt].
Qed.

Lemma empty_selection_witness :
  let w := after [FilesSelected [Sample.beach; Sample.forest];
                  EnrichmentSettled 0 (Fulfilled Sample.dusk)] in
  step w (FilesSelected []) = Some w.
Proof.
  exact (proj1 (empty_selection_changes_nothing
                  (after [FilesSelected [Sample.beach; Sample.forest];
                          EnrichmentSettled 0 (Fulfilled Sample.dusk)])
                  ltac:(now eapply reachable_after))).
Defined.

(** ** Uploads and imports *)

(** X24.  An upload and an import only append.  After an upload of N
    files the registry is the former registry followed by N new records
    in the order of the files, each with the file's UUID and object URL,
    empty title, caption, album and tags, loading and without error, and
    exactly those N records have a request started, in that order.  After
    an import the registry is the former registry followed by the
    imported records (so unchanged for an empty import), and neither the
    counter nor the outstanding requests change: imported records are
    never enriched. *)
Theorem uploads_and_imports_append (w : World) :
  (forall files,
      exists w',
        step w (FilesSelected files) = Some w'
        /\ photos (app w') = photos (app w) ++ newPhotosOf files
        /\ inFlight w' = inFlight w ++ newPhotosOf files
        /\ map identity (newPhotosOf files)
           = map (fun f => (sel_uuid f, sel_url f, sel_file f)) files
        /\ forall p, In p (newPhotosOf files) ->
                     isLoading p = true /\ error p = None
                     /\ title p = [] /\ caption p = [] /\ album p = []
                     /\ tags p = [])
  /\ (forall imported w',
         step w (ImportResolved imported) = Some w' ->
         photos (app w') = photos (app w) ++ imported
         /\ inFlight w' = inFlight w
         /\ processingProgress (app w') = processingProgress (app w)
         /\ resetTimer w' = resetTimer w).
Proof.
  split.
  - intros files. eexists. split; [reflexivity|]. simpl.
    do 2 (split; [reflexivity|]). split.
    + unfold newPhotosOf. rewrite map_map. reflexivity.
    + intros p Hp. unfold newPhotosOf in Hp.
      apply in_map_iff in Hp as (f & <- & _). simpl. now repeat split.
  - intros imported w' H. simpl in H.
    destruct (importContract imported); [|discriminate].
    injection H as <-. simpl. unfold handleImportSelected.
    destruct imported as [|p l]; simpl; [now rewrite app_nil_r|].
    now repeat split.
Qed.

(** ** Unique ids *)

Lemma map_id_of_identity (l : list Photo) :
  map id l = map (fun x => fst (fst x)) (map identity l).
Proof. rewrite map_map. reflexivity. Qed.

Lemma NoDup_map_filter {A B} (f : A -> B) (keep : A -> bool) (l : list A) :
  NoDup (map f l) -> NoDup (map f (filter keep l)).
Proof.
  induction l as [|x l IH]; simpl; intros H; [constructor|].
  inversion H as [|? ? Hnotin Hnd]; subst.
  destruct (keep x); simpl; [|now apply IH].
  constructor; [|now apply IH].
  intros Hin. apply Hnotin. apply in_map_iff in Hin as (y & Hy & Hyin).
  apply filter_In in Hyin as [Hyin _]. rewrite <- Hy. now apply in_map.
Qed.

Lemma NoDup_append_fresh {A} (l added : list A) :
  NoDup l -> NoDup added -> (forall x, In x added -> ~ In x l) ->
  NoDup (l ++ added).
Proof.
  intros Hl Ha Hfresh. apply NoDup_app; [assumption | assumption |].
  intros x Hx Hx'. now apply (Hfresh x Hx').
Qed.

Lemma fresh_step_unique (w : World) (e : Event) (w' : World) :
  NoDup (map id (photos (app w))) ->
  Fresh.freshFor w e -> step w e = Some w' ->
  NoDup (map id (photos (app w'))).
Proof.
  intros Hnd [Hnew Hfresh] Hstep.
  destruct (restructures e) eqn:Hr.
  - destruct e; try discriminate Hr; simpl in Hstep.
    + injection Hstep as <-. simpl in *. rewrite map_app.
      replace (map id (newPhotosOf files)) with (map sel_uuid files)
        by (unfold newPhotosOf; now rewrite map_map).
      now apply NoDup_append_fresh.
    + destruct (importContract imported); [|discriminate].
      injection Hstep as <-. simpl in *. unfold handleImportSelected.
      destruct (0 <? length imported); [|assumption].
      simpl. rewrite map_app. now apply NoDup_append_fresh.
    + injection Hstep as <-. simpl. unfold confirmDelete.
      destruct (photoToDelete (app w)) as [target|]; [|assumption].
      destruct (negb (truthy target)); [assumption|].
      simpl. now apply NoDup_map_filter.
    + injection Hstep as <-. constructor.
  - rewrite map_id_of_identity.
    rewrite (identity_frame_of_step w e w' Hr Hstep).
    now rewrite <- map_id_of_identity.
Qed.

Lemma fresh_unique (w : World) :
  Fresh.freshReachable w -> NoDup (map id (photos (app w))).
Proof.
  induction 1 as [|w e w' _ IH Hf Hstep]; [constructor|].
  now apply (fresh_step_unique w e).
Qed.

Lemma same_id_same_index (l : list Photo) (i j : nat) (p q : Photo) :
  NoDup (map id l) ->
  nth_error l i = Some p -> nth_error l j = Some q -> id p = id q -> i = j.
Proof.
  intros Hnd Hi Hj Hid.
  apply (proj1 (NoDup_nth_error (map id l)) Hnd).
  - rewrite length_map. apply nth_error_Some. congruence.
  - rewrite !nth_error_map, Hi, Hj. simpl. now rewrite Hid.
Qed.

(** X25.  As long as every upload and import brings ids that are new to
    the registry (what [crypto.randomUUID] and the codec are for), no two
    records of the registry share an id, whatever else happens; and then
    a settlement changes at most one record, and so does an edit coming
    from a card. *)
Theorem fresh_ids_stay_unique (w : World) :
  Fresh.freshReachable w ->
  NoDup (map id (photos (app w)))
  /\ forall e w' i j p q,
      (isSettlement e = true \/ exists c, e = CardCallback c) ->
      step w e = Some w' ->
      nth_error (photos (app w)) i = Some p ->
      nth_error (photos (app w)) j = Some q ->
      nth_error (photos (app w')) i <> Some p ->
      nth_error (photos (app w')) j <> Some q ->
      i = j.
Proof.
  intros Hw. pose proof (fresh_unique w Hw) as Hnd. split; [exact Hnd|].
  intros e w' i j p q He Hstep Hi Hj Hci Hcj.
  assert (Hkey : exists target,
             forall k x, nth_error (photos (app w)) k = Some x ->
                         nth_error (photos (app w')) k <> Some x ->
                         id x = target).
  { destruct He as [He | [c ->]].
    - destruct e; try discriminate He. simpl in Hstep.
      destruct (nth_error (inFlight w) n) as [newPhoto|]; [|discriminate].
      injection Hstep as <-. exists (id newPhoto). intros k x Hk Hc.
      eq_cases (id x) (id newPhoto); [assumption|]. exfalso. apply Hc.
      apply strict_eq_false_iff in E.
      destruct r; simpl; unfold enrichmentFailed, enrichmentSucceeded;
        rewrite nth_error_map, Hk; simpl; now rewrite E.
    - simpl in Hstep. injection Hstep as <-.
      destruct c as [t v|t v|t v|t]; exists t; intros k x Hk Hc; simpl in Hc;
        try (eq_cases (id x) t; [assumption|]; exfalso; apply Hc;
             apply strict_eq_false_iff in E;
             rewrite nth_error_map, Hk; simpl; now rewrite E).
      exfalso. now apply Hc. }
  destruct Hkey as [target Hkey].
  apply (same_id_same_index (photos (app w)) i j p q Hnd Hi Hj).
  rewrite (Hkey i p Hi Hci), (Hkey j q Hj Hcj). reflexivity.
Qed.

Ltac fresh_ids :=
  split;
  [ repeat constructor; vm_compute; intuition discriminate
  | let i := fresh "i" in
    let Hi := fresh "Hi" in
    let Hin := fresh "Hin" in
    intros i Hi Hin; vm_compute in Hi, Hin; intuition (subst; discriminate) ].

Lemma fresh_ids_witness :
  NoDup (map id (photos (app (after [FilesSelected [Sample.beach; Sample.forest];
                                     EnrichmentSettled 0 (Fulfilled Sample.dusk);
                                     FilesSelected [Sample.harbour]])))).
Proof.
  apply (fun H => proj1 (fresh_ids_stay_unique _ H)).
  apply (Fresh.fresh_step
           (after [FilesSelected [Sample.beach; Sample.forest];
                   EnrichmentSettled 0 (Fulfilled Sample.dusk)])
           (FilesSelected [Sample.harbour])); [|fresh_ids|reflexivity].
  apply (Fresh.fresh_step
           (after [FilesSelected [Sample.beach; Sample.forest]])
           (EnrichmentSettled 0 (Fulfilled Sample.dusk)));
    [|fresh_ids|reflexivity].
  apply (Fresh.fresh_step initialWorld
           (FilesSelected [Sample.beach; Sample.forest]));
    [apply Fresh.fresh_initial|fresh_ids|reflexivity].
Defined.
